(** * strongSwan: TLS session keys (tls_crypto.c) and the CHILD_SA hand-off

    A shallow embedding of [tls_crypto.c]: the suite table, the building of
    the local suite list, suite selection with the construction of the
    primitives, and the derivation of the master secret and of the key
    block.  The crypto factory ([lib->crypto]), the TLS PRF and the [tls_t]
    context are collaborators of that file; they enter as a record of
    operations.  The second part models the policy hand-off of a rekeyed
    CHILD_SA documented in [child_sa.h]. *)

From Stdlib Require Import ZArith Lia.
From Stdlib.Strings Require Import Byte.
From stdpp Require Import base option list gmap strings.

Local Open Scope Z_scope.

(** ** Identifiers *)

Module TlsCrypto.

(** Modelled from the spec: the declaration of [tls_cipher_suite_t]
    (tls_crypto.h) is not among the sources.  It is an enum in C, compared
    with [==] and returned as [0] for "no suite"; the identifiers carry the
    registered 16-bit cipher-suite codes the spec refers to. *)
Definition tls_cipher_suite_t := Z.

Definition TLS_NULL_WITH_NULL_NULL : tls_cipher_suite_t := 0x0000.
Definition TLS_RSA_WITH_NULL_MD5 : tls_cipher_suite_t := 0x0001.
Definition TLS_RSA_WITH_NULL_SHA : tls_cipher_suite_t := 0x0002.
Definition TLS_RSA_WITH_3DES_EDE_CBC_SHA : tls_cipher_suite_t := 0x000A.
Definition TLS_RSA_WITH_AES_128_CBC_SHA : tls_cipher_suite_t := 0x002F.
Definition TLS_RSA_WITH_AES_256_CBC_SHA : tls_cipher_suite_t := 0x0035.
Definition TLS_RSA_WITH_NULL_SHA256 : tls_cipher_suite_t := 0x003B.
Definition TLS_RSA_WITH_AES_128_CBC_SHA256 : tls_cipher_suite_t := 0x003C.

(** Modelled from the spec: the declaration of [tls_version_t] (tls.h) is
    not among the sources.  The versions are compared with [<]; the values
    are the protocol's version numbers. *)
Definition tls_version_t := Z.

Definition TLS_1_0 : tls_version_t := 0x0301.
Definition TLS_1_1 : tls_version_t := 0x0302.
Definition TLS_1_2 : tls_version_t := 0x0303.

(** The algorithm enums: the constants the file names, and one constructor
    for every other identifier the factory may enumerate. *)
Inductive hash_algorithm_t := HASH_MD5 | HASH_SHA1 | HASH_SHA256.

Inductive pseudo_random_function_t :=
  PRF_HMAC_MD5 | PRF_HMAC_SHA1 | PRF_HMAC_SHA2_256.

Inductive integrity_algorithm_t :=
| AUTH_HMAC_MD5_128
| AUTH_HMAC_SHA1_160
| AUTH_HMAC_SHA2_256_256
| AUTH_OTHER (id : Z).

Inductive encryption_algorithm_t :=
| ENCR_NULL
| ENCR_AES_CBC
| ENCR_3DES
| ENCR_OTHER (id : Z).

#[global] Instance integrity_algorithm_eq_dec : EqDecision integrity_algorithm_t.
Proof. solve_decision. Defined.

#[global] Instance encryption_algorithm_eq_dec :
  EqDecision encryption_algorithm_t.
Proof. solve_decision. Defined.

(** ** Chunks

    A [chunk_t] is a pointer with a length; what the code reads through it
    is a sequence of bytes. *)
Definition chunk_t := list byte.

Definition chunk_empty : chunk_t := [].

(** Modelled from the spec: the chunk helpers (chunk.h) are not among the
    sources.  [chunk_create (ptr, len)] is the view of [len] bytes at
    [ptr]. *)
Definition chunk_create (at_ptr : chunk_t) (len : nat) : chunk_t :=
  take len at_ptr.

(** Modelled from the spec: [chunk_skip] moves the view forward by [bytes]
    and yields the empty chunk when nothing is left. *)
Definition chunk_skip (chunk : chunk_t) (bytes : nat) : chunk_t :=
  if (bytes <? length chunk)%nat then drop bytes chunk else chunk_empty.

(** Modelled from the spec: [chunk_cata ("cc", a, b)] is [a] followed by
    [b]. *)
Definition chunk_cata (a b : chunk_t) : chunk_t := a ++ b.

(** Modelled from the spec: [chunk_clone] copies the bytes. *)
Definition chunk_clone (c : chunk_t) : chunk_t := c.

(** [memset (buf, 0, sizeof (buf))] *)
Definition memset_zero (buf : chunk_t) : chunk_t :=
  replicate (length buf) x00.

(** ** The suite table *)

Record suite_algs_t := {
  sa_suite : tls_cipher_suite_t;
  sa_hash : hash_algorithm_t;
  sa_prf : pseudo_random_function_t;
  sa_mac : integrity_algorithm_t;
  sa_encr : encryption_algorithm_t;
  sa_encr_size : nat;
}.

Definition suite_algs : list suite_algs_t := [
  {| sa_suite := TLS_RSA_WITH_NULL_MD5;
     sa_hash := HASH_MD5; sa_prf := PRF_HMAC_MD5;
     sa_mac := AUTH_HMAC_MD5_128;
     sa_encr := ENCR_NULL; sa_encr_size := 0 |};
  {| sa_suite := TLS_RSA_WITH_NULL_SHA;
     sa_hash := HASH_SHA1; sa_prf := PRF_HMAC_SHA1;
     sa_mac := AUTH_HMAC_SHA1_160;
     sa_encr := ENCR_NULL; sa_encr_size := 0 |};
  {| sa_suite := TLS_RSA_WITH_NULL_SHA256;
     sa_hash := HASH_SHA256; sa_prf := PRF_HMAC_SHA2_256;
     sa_mac := AUTH_HMAC_SHA2_256_256;
     sa_encr := ENCR_NULL; sa_encr_size := 0 |};
  {| sa_suite := TLS_RSA_WITH_AES_128_CBC_SHA;
     sa_hash := HASH_SHA1; sa_prf := PRF_HMAC_SHA1;
     sa_mac := AUTH_HMAC_SHA1_160;
     sa_encr := ENCR_AES_CBC; sa_encr_size := 16 |};
  {| sa_suite := TLS_RSA_WITH_AES_256_CBC_SHA;
     sa_hash := HASH_SHA1; sa_prf := PRF_HMAC_SHA1;
     sa_mac := AUTH_HMAC_SHA1_160;
     sa_encr := ENCR_AES_CBC; sa_encr_size := 32 |};
  {| sa_suite := TLS_RSA_WITH_3DES_EDE_CBC_SHA;
     sa_hash := HASH_SHA1; sa_prf := PRF_HMAC_SHA1;
     sa_mac := AUTH_HMAC_SHA1_160;
     sa_encr := ENCR_3DES; sa_encr_size := 0 |};
  {| sa_suite := TLS_RSA_WITH_AES_128_CBC_SHA256;
     sa_hash := HASH_SHA256; sa_prf := PRF_HMAC_SHA2_256;
     sa_mac := AUTH_HMAC_SHA2_256_256;
     sa_encr := ENCR_AES_CBC; sa_encr_size := 16 |}
].

(** The loop of [find_suite] over a table; [None] is the NULL result. *)
Fixpoint find_suite_in (table : list suite_algs_t) (suite : tls_cipher_suite_t)
  : option suite_algs_t :=
  match table with
  | [] => None
  | algs :: rest =>
      if sa_suite algs =? suite then Some algs else find_suite_in rest suite
  end.

Definition find_suite (suite : tls_cipher_suite_t) : option suite_algs_t :=
  find_suite_in suite_algs suite.

(** ** Primitives and their factory *)

(** A signer instance: what [get_key_size] answers and the key [set_key]
    loaded last. *)
Record signer_t := {
  signer_key_size : nat;
  signer_key : chunk_t;
}.

Record crypter_t := {
  crypter_key_size : nat;
  crypter_block_size : nat;
  crypter_key : chunk_t;
}.

(** A TLS PRF instance: which construction it is and its key. *)
Inductive tls_prf_kind :=
| PRF_10
| PRF_12 (alg : pseudo_random_function_t).

Record tls_prf_t := {
  prf_kind : tls_prf_kind;
  prf_key : chunk_t;
}.

Definition signer_set_key (s : signer_t) (key : chunk_t) : signer_t :=
  {| signer_key_size := signer_key_size s; signer_key := key |}.

Definition crypter_set_key (c : crypter_t) (key : chunk_t) : crypter_t :=
  {| crypter_key_size := crypter_key_size c;
     crypter_block_size := crypter_block_size c;
     crypter_key := key |}.

Definition prf_set_key (p : tls_prf_t) (key : chunk_t) : tls_prf_t :=
  {| prf_kind := prf_kind p; prf_key := key |}.

(** [lib->crypto] and the PRF constructors: what the two enumerators yield,
    what each constructor returns ([None] is NULL), and the byte stream a
    keyed PRF produces for a label and a seed. *)
Record crypto_factory_t := {
  signer_enumerator : list integrity_algorithm_t;
  crypter_enumerator : list encryption_algorithm_t;
  create_signer : integrity_algorithm_t -> option signer_t;
  create_crypter : encryption_algorithm_t -> nat -> option crypter_t;
  tls_prf_create_10 : option tls_prf_t;
  tls_prf_create_12 : pseudo_random_function_t -> option tls_prf_t;
  prf_stream : tls_prf_t -> string -> chunk_t -> nat -> byte;
}.

(** [prf->get_bytes (prf, label, seed, bytes, out)]: fills [bytes] bytes. *)
Definition prf_get_bytes (lib : crypto_factory_t) (p : tls_prf_t)
    (label : string) (seed : chunk_t) (bytes : nat) : chunk_t :=
  map (prf_stream lib p label seed) (seq 0 bytes).

(** The [tls_t] context, as far as this file asks it. *)
Record tls_t := {
  get_version : tls_version_t;
  is_server : bool;
}.

(** ** The object *)

(** [private_tls_crypto_t]; [suites] stands for the allocated array together
    with [suite_count]. *)
Record private_tls_crypto_t := {
  suites : list tls_cipher_suite_t;
  suite : tls_cipher_suite_t;
  tls : tls_t;
  prf : option tls_prf_t;
  signer_in : option signer_t;
  signer_out : option signer_t;
  crypter_in : option crypter_t;
  crypter_out : option crypter_t;
  iv_in : chunk_t;
  iv_out : chunk_t;
}.

Definition set_suites (v : list tls_cipher_suite_t) (o : private_tls_crypto_t) :=
  {| suites := v; suite := suite o; tls := tls o; prf := prf o;
     signer_in := signer_in o; signer_out := signer_out o;
     crypter_in := crypter_in o; crypter_out := crypter_out o;
     iv_in := iv_in o; iv_out := iv_out o |}.

Definition set_suite (v : tls_cipher_suite_t) (o : private_tls_crypto_t) :=
  {| suites := suites o; suite := v; tls := tls o; prf := prf o;
     signer_in := signer_in o; signer_out := signer_out o;
     crypter_in := crypter_in o; crypter_out := crypter_out o;
     iv_in := iv_in o; iv_out := iv_out o |}.

Definition set_prf (v : option tls_prf_t) (o : private_tls_crypto_t) :=
  {| suites := suites o; suite := suite o; tls := tls o; prf := v;
     signer_in := signer_in o; signer_out := signer_out o;
     crypter_in := crypter_in o; crypter_out := crypter_out o;
     iv_in := iv_in o; iv_out := iv_out o |}.

Definition set_signer_in (v : option signer_t) (o : private_tls_crypto_t) :=
  {| suites := suites o; suite := suite o; tls := tls o; prf := prf o;
     signer_in := v; signer_out := signer_out o;
     crypter_in := crypter_in o; crypter_out := crypter_out o;
     iv_in := iv_in o; iv_out := iv_out o |}.

Definition set_signer_out (v : option signer_t) (o : private_tls_crypto_t) :=
  {| suites := suites o; suite := suite o; tls := tls o; prf := prf o;
     signer_in := signer_in o; signer_out := v;
     crypter_in := crypter_in o; crypter_out := crypter_out o;
     iv_in := iv_in o; iv_out := iv_out o |}.

Definition set_crypter_in (v : option crypter_t) (o : private_tls_crypto_t) :=
  {| suites := suites o; suite := suite o; tls := tls o; prf := prf o;
     signer_in := signer_in o; signer_out := signer_out o;
     crypter_in := v; crypter_out := crypter_out o;
     iv_in := iv_in o; iv_out := iv_out o |}.

Definition set_crypter_out (v : option crypter_t) (o : private_tls_crypto_t) :=
  {| suites := suites o; suite := suite o; tls := tls o; prf := prf o;
     signer_in := signer_in o; signer_out := signer_out o;
     crypter_in := crypter_in o; crypter_out := v;
     iv_in := iv_in o; iv_out := iv_out o |}.

Definition set_iv_in (v : chunk_t) (o : private_tls_crypto_t) :=
  {| suites := suites o; suite := suite o; tls := tls o; prf := prf o;
     signer_in := signer_in o; signer_out := signer_out o;
     crypter_in := crypter_in o; crypter_out := crypter_out o;
     iv_in := v; iv_out := iv_out o |}.

Definition set_iv_out (v : chunk_t) (o : private_tls_crypto_t) :=
  {| suites := suites o; suite := suite o; tls := tls o; prf := prf o;
     signer_in := signer_in o; signer_out := signer_out o;
     crypter_in := crypter_in o; crypter_out := crypter_out o;
     iv_in := iv_in o; iv_out := v |}.

(** ** build_cipher_suite_list *)

(** [supported[64]] and [unique[64]]. *)
Definition SUPPORTED_SIZE : nat := 64.

(** [supported[count++] = s]: the array is the list of its first [count]
    entries; a store past the last entry has no defined result. *)
Definition push (s : tls_cipher_suite_t) (supported : list tls_cipher_suite_t)
  : option (list tls_cipher_suite_t) :=
  if (length supported <? SUPPORTED_SIZE)%nat then Some (supported ++ [s])
  else None.

(** The first [switch (mac)]. *)
Definition mac_case (mac : integrity_algorithm_t)
    (supported : list tls_cipher_suite_t) : option (list tls_cipher_suite_t) :=
  match mac with
  | AUTH_HMAC_SHA1_160 => push TLS_RSA_WITH_NULL_SHA supported
  | AUTH_HMAC_SHA2_256_256 => push TLS_RSA_WITH_NULL_SHA256 supported
  | AUTH_HMAC_MD5_128 => push TLS_RSA_WITH_NULL_MD5 supported
  | AUTH_OTHER _ => Some supported
  end.

(** [switch (encr)] with its inner [switch (mac)]. *)
Definition encr_case (mac : integrity_algorithm_t) (encr : encryption_algorithm_t)
    (supported : list tls_cipher_suite_t) : option (list tls_cipher_suite_t) :=
  match encr with
  | ENCR_AES_CBC =>
      match mac with
      | AUTH_HMAC_SHA1_160 =>
          supported ← push TLS_RSA_WITH_AES_128_CBC_SHA supported;
          push TLS_RSA_WITH_AES_256_CBC_SHA supported
      | AUTH_HMAC_SHA2_256_256 =>
          supported ← push TLS_RSA_WITH_AES_128_CBC_SHA256 supported;
          push TLS_RSA_WITH_AES_128_CBC_SHA256 supported
      | _ => Some supported
      end
  | ENCR_3DES =>
      match mac with
      | AUTH_HMAC_SHA1_160 => push TLS_RSA_WITH_3DES_EDE_CBC_SHA supported
      | _ => Some supported
      end
  | _ => Some supported
  end.

(** [while (encrs->enumerate (encrs, &encr))] *)
Fixpoint encrs_loop (mac : integrity_algorithm_t)
    (encrs : list encryption_algorithm_t)
    (supported : list tls_cipher_suite_t) : option (list tls_cipher_suite_t) :=
  match encrs with
  | [] => Some supported
  | encr :: rest =>
      supported ← encr_case mac encr supported;
      encrs_loop mac rest supported
  end.

(** [while (macs->enumerate (macs, &mac))] *)
Fixpoint macs_loop (lib : crypto_factory_t) (macs : list integrity_algorithm_t)
    (supported : list tls_cipher_suite_t) : option (list tls_cipher_suite_t) :=
  match macs with
  | [] => Some supported
  | mac :: rest =>
      supported ← mac_case mac supported;
      supported ← encrs_loop mac (crypter_enumerator lib) supported;
      macs_loop lib rest supported
  end.

(** The inner loop of the duplicate removal: is [s] among [unique]? *)
Fixpoint match_unique (s : tls_cipher_suite_t) (unique : list tls_cipher_suite_t)
  : bool :=
  match unique with
  | [] => false
  | u :: rest => if s =? u then true else match_unique s rest
  end.

(** The outer loop: [unique] holds the [suite_count] entries kept so far. *)
Fixpoint remove_duplicates (supported unique : list tls_cipher_suite_t)
  : list tls_cipher_suite_t :=
  match supported with
  | [] => unique
  | s :: rest =>
      if match_unique s unique then remove_duplicates rest unique
      else remove_duplicates rest (unique ++ [s])
  end.

Definition build_cipher_suite_list (lib : crypto_factory_t)
    (this : private_tls_crypto_t) : option private_tls_crypto_t :=
  supported ← macs_loop lib (signer_enumerator lib) [];
  Some (set_suites (remove_duplicates supported []) this).

(** ** Calls to the collaborators

    The constructions asked of the factory and the calls made on the PRF, in
    the order the code makes them. *)
Inductive call :=
| Call_tls_prf_create_10
| Call_tls_prf_create_12 (alg : pseudo_random_function_t)
| Call_create_signer (alg : integrity_algorithm_t)
| Call_create_crypter (alg : encryption_algorithm_t) (key_size : nat)
| Call_prf_set_key (key : chunk_t)
| Call_prf_get_bytes (label : string) (seed : chunk_t) (bytes : nat).

Record world := {
  this : private_tls_crypto_t;
  calls : list call;
}.

(** State passing over the object and the calls made so far. *)
Definition M (A : Type) : Type := world -> A * world.

#[global] Instance M_ret : MRet M := fun A a w => (a, w).

#[global] Instance M_bind : MBind M := fun A B f m w =>
  let '(a, w') := m w in f a w'.

Definition get_this : M private_tls_crypto_t := fun w => (this w, w).

Definition modify_this (f : private_tls_crypto_t -> private_tls_crypto_t)
  : M unit :=
  fun w => (tt, {| this := f (this w); calls := calls w |}).

Definition made {A : Type} (c : call) (result : A) : M A :=
  fun w => (result, {| this := this w; calls := calls w ++ [c] |}).

(** ** create_ciphers *)

Definition create_ciphers (lib : crypto_factory_t) (suite : tls_cipher_suite_t)
  : M bool :=
  match find_suite suite with
  | None => mret false
  | Some algs =>
      o ← get_this;
      p ← (if get_version (tls o) <? TLS_1_2
           then made Call_tls_prf_create_10 (tls_prf_create_10 lib)
           else made (Call_tls_prf_create_12 (sa_prf algs))
                     (tls_prf_create_12 lib (sa_prf algs)));
      modify_this (set_prf p);;
      if negb (bool_decide (is_Some p)) then mret false else
      si ← made (Call_create_signer (sa_mac algs))
                (create_signer lib (sa_mac algs));
      modify_this (set_signer_in si);;
      so ← made (Call_create_signer (sa_mac algs))
                (create_signer lib (sa_mac algs));
      modify_this (set_signer_out so);;
      if negb (bool_decide (is_Some si)) || negb (bool_decide (is_Some so))
      then mret false else
      match sa_encr algs with
      | ENCR_NULL =>
          modify_this (set_crypter_out None);;
          modify_this (set_crypter_in None);;
          mret true
      | encr =>
          ci ← made (Call_create_crypter encr (sa_encr_size algs))
                    (create_crypter lib encr (sa_encr_size algs));
          modify_this (set_crypter_in ci);;
          co ← made (Call_create_crypter encr (sa_encr_size algs))
                    (create_crypter lib encr (sa_encr_size algs));
          modify_this (set_crypter_out co);;
          if negb (bool_decide (is_Some ci)) || negb (bool_decide (is_Some co))
          then mret false else mret true
      end
  end.

(** ** select_cipher_suite *)

(** The inner loop, over the peer's [suites[j]], for one [this->suites[i]];
    [Some] is the [return] from inside the loops. *)
Fixpoint select_peer_loop (lib : crypto_factory_t) (mine : tls_cipher_suite_t)
    (peer : list tls_cipher_suite_t) : M (option tls_cipher_suite_t) :=
  match peer with
  | [] => mret None
  | theirs :: rest =>
      if mine =? theirs then
        ok ← create_ciphers lib mine;
        if ok : bool then
          modify_this (set_suite mine);;
          o ← get_this;
          mret (Some (suite o))
        else select_peer_loop lib mine rest
      else select_peer_loop lib mine rest
  end.

(** The outer loop, over [this->suites[i]]. *)
Fixpoint select_local_loop (lib : crypto_factory_t)
    (local peer : list tls_cipher_suite_t) : M tls_cipher_suite_t :=
  match local with
  | [] => mret 0
  | mine :: rest =>
      r ← select_peer_loop lib mine peer;
      match r with
      | Some selected => mret selected
      | None => select_local_loop lib rest peer
      end
  end.

Definition select_cipher_suite (lib : crypto_factory_t)
    (peer : list tls_cipher_suite_t) : M tls_cipher_suite_t :=
  o ← get_this;
  select_local_loop lib (suites o) peer.

(** ** derive_master_secret *)

(** [sizeof (master)] *)
Definition MASTER_SIZE : nat := 48.

(** The buffers one call works on, as they are when it returns: the caller's
    bytes behind [premaster], the array [master], the bytes of the
    [chunk_alloca]ted key block, and what the local view [block] still
    covers. *)
Record frame := {
  premaster_mem : chunk_t;
  master_mem : chunk_t;
  key_block_mem : chunk_t;
  block_left : chunk_t;
}.

(** [None] is a call through a NULL primitive.  The sizes are the small
    sizes of keys and cipher blocks, taken as natural numbers. *)
Definition derive_master_secret (lib : crypto_factory_t)
    (premaster client_random server_random : chunk_t) (w : world)
  : option (frame * world) :=
  let o := this w in
  (* derive master secret *)
  let seed1 := chunk_cata client_random server_random in
  p ← prf o;
  let p := prf_set_key p premaster in
  let master := prf_get_bytes lib p "master secret" seed1 MASTER_SIZE in
  let p := prf_set_key p master in
  let o := set_prf (Some p) o in
  let master_zeroed := memset_zero master in
  (* derive key block for key expansion *)
  so ← signer_out o;
  let mks := signer_key_size so in
  let eks :=
    match crypter_out o with
    | Some co => crypter_key_size co
    | None => 0%nat
    end in
  let ivs :=
    match crypter_out o with
    | Some co =>
        if get_version (tls o) <? TLS_1_2 then crypter_block_size co else 0%nat
    | None => 0%nat
    end in
  let seed2 := chunk_cata server_random client_random in
  let key_block :=
    prf_get_bytes lib p "key expansion" seed2 ((mks + eks + ivs) * 2) in
  let block := key_block in
  (* signer keys *)
  let client_write := chunk_create block mks in
  let block := chunk_skip block mks in
  let server_write := chunk_create block mks in
  let block := chunk_skip block mks in
  si ← signer_in o;
  let o :=
    if is_server (tls o) then
      set_signer_out (Some (signer_set_key so server_write))
        (set_signer_in (Some (signer_set_key si client_write)) o)
    else
      set_signer_in (Some (signer_set_key si server_write))
        (set_signer_out (Some (signer_set_key so client_write)) o) in
  (* crypter keys, and IVs if < TLSv1.2 *)
  let '(o, block) :=
    match crypter_out o, crypter_in o with
    | Some co, Some ci =>
        let client_write := chunk_create block eks in
        let block := chunk_skip block eks in
        let server_write := chunk_create block eks in
        let block := chunk_skip block eks in
        let o :=
          if is_server (tls o) then
            set_crypter_out (Some (crypter_set_key co server_write))
              (set_crypter_in (Some (crypter_set_key ci client_write)) o)
          else
            set_crypter_in (Some (crypter_set_key ci server_write))
              (set_crypter_out (Some (crypter_set_key co client_write)) o) in
        if (ivs =? 0)%nat then (o, block) else
          let client_write := chunk_create block ivs in
          let block := chunk_skip block ivs in
          let server_write := chunk_create block ivs in
          let block := chunk_skip block ivs in
          let o :=
            if is_server (tls o) then
              set_iv_out (chunk_clone server_write)
                (set_iv_in (chunk_clone client_write) o)
            else
              set_iv_in (chunk_clone server_write)
                (set_iv_out (chunk_clone client_write) o) in
          (o, block)
    | _, _ => (o, block)
    end in
  Some ({| premaster_mem := premaster;
           master_mem := master_zeroed;
           key_block_mem := key_block;
           block_left := block |},
        {| this := o;
           calls := calls w ++
             [ Call_prf_set_key premaster;
               Call_prf_get_bytes "master secret" seed1 MASTER_SIZE;
               Call_prf_set_key master;
               Call_prf_get_bytes "key expansion" seed2
                 ((mks + eks + ivs) * 2) ] |}).

(** The sizes the derivation reads off the object: [mks], [eks], [ivs]. *)
Definition mac_key_len (o : private_tls_crypto_t) : nat :=
  from_option signer_key_size 0%nat (signer_out o).

Definition enc_key_len (o : private_tls_crypto_t) : nat :=
  from_option crypter_key_size 0%nat (crypter_out o).

Definition iv_len (o : private_tls_crypto_t) : nat :=
  match crypter_out o with
  | Some co =>
      if get_version (tls o) <? TLS_1_2 then crypter_block_size co else 0%nat
  | None => 0%nat
  end.

(** ** What the specification says, in its own terms *)

(** The expansion of the enumerated algorithms into suites, without the
    work array. *)
Definition mac_suites (mac : integrity_algorithm_t) : list tls_cipher_suite_t :=
  match mac with
  | AUTH_HMAC_SHA1_160 => [TLS_RSA_WITH_NULL_SHA]
  | AUTH_HMAC_SHA2_256_256 => [TLS_RSA_WITH_NULL_SHA256]
  | AUTH_HMAC_MD5_128 => [TLS_RSA_WITH_NULL_MD5]
  | AUTH_OTHER _ => []
  end.

Definition encr_suites (mac : integrity_algorithm_t)
    (encr : encryption_algorithm_t) : list tls_cipher_suite_t :=
  match encr, mac with
  | ENCR_AES_CBC, AUTH_HMAC_SHA1_160 =>
      [TLS_RSA_WITH_AES_128_CBC_SHA; TLS_RSA_WITH_AES_256_CBC_SHA]
  | ENCR_AES_CBC, AUTH_HMAC_SHA2_256_256 =>
      [TLS_RSA_WITH_AES_128_CBC_SHA256; TLS_RSA_WITH_AES_128_CBC_SHA256]
  | ENCR_3DES, AUTH_HMAC_SHA1_160 => [TLS_RSA_WITH_3DES_EDE_CBC_SHA]
  | _, _ => []
  end.

Definition expand_mac (encrs : list encryption_algorithm_t)
    (mac : integrity_algorithm_t) : list tls_cipher_suite_t :=
  mac_suites mac ++ flat_map (encr_suites mac) encrs.

Definition expand_suites (lib : crypto_factory_t) : list tls_cipher_suite_t :=
  flat_map (expand_mac (crypter_enumerator lib)) (signer_enumerator lib).

(** Deduplication by identifier, keeping the first-seen order: an identifier
    stays where it is seen first and its later occurrences go. *)
Fixpoint first_seen (l : list tls_cipher_suite_t) : list tls_cipher_suite_t :=
  match l with
  | [] => []
  | s :: rest => s :: filter (λ s', s' ≠ s) (first_seen rest)
  end.

(** A suite is constructible when the table knows it and the factory hands
    out every primitive it names. *)
Definition constructible (lib : crypto_factory_t) (version : tls_version_t)
    (s : tls_cipher_suite_t) : bool :=
  match find_suite s with
  | None => false
  | Some algs =>
      bool_decide (is_Some (if version <? TLS_1_2 then tls_prf_create_10 lib
                            else tls_prf_create_12 lib (sa_prf algs)))
      && bool_decide (is_Some (create_signer lib (sa_mac algs)))
      && match sa_encr algs with
         | ENCR_NULL => true
         | encr =>
             bool_decide (is_Some (create_crypter lib encr (sa_encr_size algs)))
         end
  end.

(** Selection: the first suite in local order that the peer offers and that
    is constructible; [0] when there is none. *)
Definition select_spec (lib : crypto_factory_t) (version : tls_version_t)
    (local peer : list tls_cipher_suite_t) : tls_cipher_suite_t :=
  match
    List.find (fun s => bool_decide (s ∈ peer) && constructible lib version s)
      local
  with
  | Some s => s
  | None => 0
  end.

(** The six slices of a key block, by their offsets. *)
Record key_block_slices := {
  client_mac_key : chunk_t;
  server_mac_key : chunk_t;
  client_enc_key : chunk_t;
  server_enc_key : chunk_t;
  client_iv : chunk_t;
  server_iv : chunk_t;
}.

Definition slice (from len : nat) (block : chunk_t) : chunk_t :=
  take len (drop from block).

Definition slices_of (mks eks ivs : nat) (block : chunk_t) : key_block_slices :=
  {| client_mac_key := slice 0 mks block;
     server_mac_key := slice mks mks block;
     client_enc_key := slice (2 * mks) eks block;
     server_enc_key := slice (2 * mks + eks) eks block;
     client_iv := slice (2 * mks + 2 * eks) ivs block;
     server_iv := slice (2 * mks + 2 * eks + ivs) ivs block |}.

(** The assignment of the slices to a direction for a role: the server
    reads with the client-write material and writes with the server-write
    material; the client does the opposite. *)
Definition inbound_of {A : Type} (server : bool) (client_write server_write : A)
  : A := if server then client_write else server_write.

Definition outbound_of {A : Type} (server : bool) (client_write server_write : A)
  : A := if server then server_write else client_write.

(** ** tls_crypto_create *)

(** [INIT] zeroes every field but [tls]. *)
Definition init (t : tls_t) : private_tls_crypto_t :=
  {| suites := []; suite := 0; tls := t; prf := None;
     signer_in := None; signer_out := None;
     crypter_in := None; crypter_out := None;
     iv_in := chunk_empty; iv_out := chunk_empty |}.

Definition tls_crypto_create (lib : crypto_factory_t) (t : tls_t)
  : option private_tls_crypto_t :=
  build_cipher_suite_list lib (init t).

(** ** Sample collaborators *)

Definition sample_byte (n : nat) : byte :=
  default x00 (Byte.of_nat (n mod 256)).

(** A factory with HMAC-SHA1, HMAC-SHA256 and HMAC-MD5 signers, AES-CBC and
    3DES crypters, and both PRF constructions. *)
Definition sample_lib : crypto_factory_t :=
  {| signer_enumerator :=
       [AUTH_HMAC_SHA1_160; AUTH_HMAC_SHA2_256_256; AUTH_HMAC_MD5_128];
     crypter_enumerator := [ENCR_AES_CBC; ENCR_3DES];
     create_signer := fun alg =>
       match alg with
       | AUTH_HMAC_SHA1_160 =>
           Some {| signer_key_size := 20; signer_key := [] |}
       | AUTH_HMAC_SHA2_256_256 =>
           Some {| signer_key_size := 32; signer_key := [] |}
       | AUTH_HMAC_MD5_128 =>
           Some {| signer_key_size := 16; signer_key := [] |}
       | AUTH_OTHER _ => None
       end;
     create_crypter := fun alg key_size =>
       match alg with
       | ENCR_AES_CBC =>
           Some {| crypter_key_size := key_size; crypter_block_size := 16;
                   crypter_key := [] |}
       | ENCR_3DES =>
           Some {| crypter_key_size := 24; crypter_block_size := 8;
                   crypter_key := [] |}
       | _ => None
       end;
     tls_prf_create_10 := Some {| prf_kind := PRF_10; prf_key := [] |};
     tls_prf_create_12 := fun alg =>
       Some {| prf_kind := PRF_12 alg; prf_key := [] |};
     prf_stream := fun p label seed i =>
       sample_byte (length (prf_key p) + String.length label
                    + length seed + i) |}.

(** The same factory when no AES-CBC crypter can be instantiated. *)
Definition sample_lib_without_aes : crypto_factory_t :=
  {| signer_enumerator := signer_enumerator sample_lib;
     crypter_enumerator := crypter_enumerator sample_lib;
     create_signer := create_signer sample_lib;
     create_crypter := fun alg key_size =>
       match alg with
       | ENCR_AES_CBC => None
       | _ => create_crypter sample_lib alg key_size
       end;
     tls_prf_create_10 := tls_prf_create_10 sample_lib;
     tls_prf_create_12 := tls_prf_create_12 sample_lib;
     prf_stream := prf_stream sample_lib |}.

Definition sample_server : tls_t :=
  {| get_version := TLS_1_0; is_server := true |}.

Definition sample_client : tls_t :=
  {| get_version := TLS_1_2; is_server := false |}.

(** An object with a given local suite list and nothing constructed yet. *)
Definition sample_world (t : tls_t) (local : list tls_cipher_suite_t) : world :=
  {| this := set_suites local (init t); calls := [] |}.

(** A server after the negotiation of AES-128-CBC with SHA-1 under TLS 1.0,
    and the secrets of one handshake. *)
Definition sample_negotiated : world :=
  (select_cipher_suite sample_lib [TLS_RSA_WITH_AES_128_CBC_SHA]
     (sample_world sample_server [TLS_RSA_WITH_AES_128_CBC_SHA])).2.

Definition sample_premaster : chunk_t := [x03; x01] ++ replicate 46 x2a.
Definition sample_client_random : chunk_t := replicate 32 x11.
Definition sample_server_random : chunk_t := replicate 32 x22.

(** The PRF instance the sample factory hands out below TLS 1.2, and what
    it expands the sample secrets to: the master secret and the 104 bytes
    of key block of AES-128-CBC with SHA-1 (two MAC keys of 20 bytes, two
    encryption keys of 16 and two IVs of 16). *)
Definition sample_prf : tls_prf_t := {| prf_kind := PRF_10; prf_key := [] |}.

Definition sample_master : chunk_t :=
  prf_get_bytes sample_lib (prf_set_key sample_prf sample_premaster)
    "master secret" (sample_client_random ++ sample_server_random) 48.

Definition sample_key_block : chunk_t :=
  prf_get_bytes sample_lib (prf_set_key sample_prf sample_master)
    "key expansion" (sample_server_random ++ sample_client_random) 104.

(** ** get_cipher_suites, change_cipher, get_prf *)

(** [*suites = this->suites; return this->suite_count;] *)
Definition get_cipher_suites (o : private_tls_crypto_t)
  : list tls_cipher_suite_t * nat :=
  (suites o, length (suites o)).

(** What [change_cipher] passes to [tls->change_cipher]. *)
Record change_cipher_call := {
  cc_inbound : bool;
  cc_signer : option signer_t;
  cc_crypter : option crypter_t;
  cc_iv : chunk_t;
}.

Definition change_cipher (o : private_tls_crypto_t) (inbound : bool)
  : change_cipher_call :=
  if inbound then
    {| cc_inbound := true; cc_signer := signer_in o;
       cc_crypter := crypter_in o; cc_iv := iv_in o |}
  else
    {| cc_inbound := false; cc_signer := signer_out o;
       cc_crypter := crypter_out o; cc_iv := iv_out o |}.

Definition get_prf (o : private_tls_crypto_t) : option tls_prf_t := prf o.

(** ** Further sample collaborators *)

(** The sample factory when the TLS 1.0 PRF cannot be instantiated. *)
Definition sample_lib_without_prf : crypto_factory_t :=
  {| signer_enumerator := signer_enumerator sample_lib;
     crypter_enumerator := crypter_enumerator sample_lib;
     create_signer := create_signer sample_lib;
     create_crypter := create_crypter sample_lib;
     tls_prf_create_10 := None;
     tls_prf_create_12 := tls_prf_create_12 sample_lib;
     prf_stream := prf_stream sample_lib |}.

(** A TLS 1.0 client, and the client after the negotiation of AES-128-CBC
    with SHA-1. *)
Definition sample_client_10 : tls_t :=
  {| get_version := TLS_1_0; is_server := false |}.

Definition sample_negotiated_client : world :=
  (select_cipher_suite sample_lib [TLS_RSA_WITH_AES_128_CBC_SHA]
     (sample_world sample_client_10 [TLS_RSA_WITH_AES_128_CBC_SHA])).2.

(** A TLS 1.2 client after the negotiation of the NULL cipher with
    SHA-256. *)
Definition sample_negotiated_null : world :=
  (select_cipher_suite sample_lib [TLS_RSA_WITH_NULL_SHA256]
     (sample_world sample_client [TLS_RSA_WITH_NULL_SHA256])).2.

End TlsCrypto.

(** * The CHILD_SA hand-off *)

Module ChildSa.

(** Modelled from the spec: child_sa.c is not among the sources, only the
    interface child_sa.h.  Request identifiers and SPIs are the 32-bit
    numbers of the interface. *)
Definition reqid_t := Z.

(** Modelled from the spec: an SPI, a 32-bit number. *)
Definition spi_t := Z.

(** Modelled from the spec: a traffic selector, by an identifier of the
    range it stands for. *)
Definition traffic_selector_t := Z.

(** Modelled from the spec: a policy entry covers the traffic between a
    local and a remote selector. *)
Definition policy_t : Type := traffic_selector_t * traffic_selector_t.

(** Modelled from the spec: a CHILD_SA has a request identifier, the SPIs it
    holds, the traffic selectors its policy was installed for, and the
    request identifier of the SA that superseded it, once it is marked as
    rekeyed. *)
Record child_sa_t := {
  reqid : reqid_t;
  spis : list spi_t;
  my_ts : list traffic_selector_t;
  other_ts : list traffic_selector_t;
  rekeyed : option reqid_t;
}.

(** Modelled from the spec: the kernel keeps the installed SAs and the
    installed policies. *)
Record kernel_t := {
  installed_sas : gset spi_t;
  installed_policies : gset policy_t;
}.

(** Modelled from the spec: the policy entries of an SA, one for each pair
    of a local and a remote selector. *)
Definition policies (sa : child_sa_t) : list policy_t :=
  my ← my_ts sa; other ← other_ts sa; [(my, other)].

(** Modelled from the spec: [add_policies] stores the selectors and installs
    the policy for them. *)
Definition add_policies (sa : child_sa_t)
    (my_ts_list other_ts_list : list traffic_selector_t) (k : kernel_t)
  : child_sa_t * kernel_t :=
  let sa' := {| reqid := reqid sa; spis := spis sa;
                my_ts := my_ts_list; other_ts := other_ts_list;
                rekeyed := rekeyed sa |} in
  (sa', {| installed_sas := installed_sas k;
           installed_policies :=
             installed_policies k ∪ list_to_set (policies sa') |}).

(** Modelled from the spec: [set_rekeyed] marks the SA as superseded by the
    SA with the given request identifier; nothing in the kernel changes. *)
Definition set_rekeyed (sa : child_sa_t) (successor : reqid_t) : child_sa_t :=
  {| reqid := reqid sa; spis := spis sa;
     my_ts := my_ts sa; other_ts := other_ts sa;
     rekeyed := Some successor |}.

(** Modelled from the spec: [destroy] releases the kernel SAs of all SPIs
    and releases the policy only if the SA is not rekeyed. *)
Definition destroy (sa : child_sa_t) (k : kernel_t) : kernel_t :=
  {| installed_sas := installed_sas k ∖ list_to_set (spis sa);
     installed_policies :=
       match rekeyed sa with
       | Some _ => installed_policies k
       | None => installed_policies k ∖ list_to_set (policies sa)
       end |}.

Definition sample_kernel : kernel_t :=
  {| installed_sas := {[ 0x1001; 0x1002; 0x2001; 0x2002 ]};
     installed_policies := {[ (10, 20) ]} |}.

Definition sample_old_sa : child_sa_t :=
  {| reqid := 1; spis := [0x1001; 0x1002];
     my_ts := [10]; other_ts := [20]; rekeyed := None |}.

Definition sample_new_sa : child_sa_t :=
  {| reqid := 2; spis := [0x2001; 0x2002];
     my_ts := [10]; other_ts := [20]; rekeyed := None |}.

End ChildSa.

Import TlsCrypto.

(** What a successful negotiation leaves in the object: a PRF, both signers,
    and either both crypters or none. *)
Definition negotiated (o : private_tls_crypto_t) : Prop :=
  is_Some (prf o) ∧ is_Some (signer_in o) ∧ is_Some (signer_out o) ∧
  (is_Some (crypter_in o) ↔ is_Some (crypter_out o)).

(** What a call through [this->prf], [this->signer_out] and
    [this->signer_in] needs. *)
Definition keyed (o : private_tls_crypto_t) : Prop :=
  is_Some (prf o) ∧ is_Some (signer_in o) ∧ is_Some (signer_out o).

(** The fields the construction of the primitives leaves alone. *)
Definition same_session (o o' : private_tls_crypto_t) : Prop :=
  suites o' = suites o ∧ tls o' = tls o ∧
  iv_in o' = iv_in o ∧ iv_out o' = iv_out o.

(** The master secret and the key block a keyed PRF [p] yields. *)
Definition master_secret (lib : crypto_factory_t) (p : tls_prf_t)
    (premaster client_random server_random : chunk_t) : chunk_t :=
  prf_get_bytes lib (prf_set_key p premaster) "master secret"
    (client_random ++ server_random) 48.

Definition key_block (lib : crypto_factory_t) (p : tls_prf_t) (master : chunk_t)
    (client_random server_random : chunk_t) (len : nat) : chunk_t :=
  prf_get_bytes lib (prf_set_key p master) "key expansion"
    (server_random ++ client_random) len.

(** How often an algorithm is enumerated. *)
Definition occurrences {A : Type} `{EqDecision A} (a : A) (l : list A) : nat :=
  length (filter (λ x, x = a) l).

(** The primitives [create_ciphers] asks the factory for, for an entry of
    the suite table: the PRF by the protocol version, the signers by the
    MAC, the crypters by the encryption algorithm and its key size, none for
    [ENCR_NULL]. *)
Definition prf_for (lib : crypto_factory_t) (version : tls_version_t)
    (algs : suite_algs_t) : option tls_prf_t :=
  if version <? TLS_1_2 then tls_prf_create_10 lib
  else tls_prf_create_12 lib (sa_prf algs).

Definition crypter_for (lib : crypto_factory_t) (algs : suite_algs_t)
  : option crypter_t :=
  match sa_encr algs with
  | ENCR_NULL => None
  | encr => create_crypter lib encr (sa_encr_size algs)
  end.

(** The object holds the primitives of the entry [algs], all of them
    constructed. *)
Definition built (lib : crypto_factory_t) (algs : suite_algs_t)
    (o : private_tls_crypto_t) : Prop :=
  prf o = prf_for lib (get_version (tls o)) algs ∧ is_Some (prf o) ∧
  signer_in o = create_signer lib (sa_mac algs) ∧ is_Some (signer_in o) ∧
  signer_out o = create_signer lib (sa_mac algs) ∧
  crypter_in o = crypter_for lib algs ∧
  crypter_out o = crypter_for lib algs ∧
  (sa_encr algs ≠ ENCR_NULL → is_Some (crypter_in o)).

(** The constructor calls of a successful [create_ciphers]. *)
Definition create_ciphers_calls (version : tls_version_t) (algs : suite_algs_t)
  : list call :=
  [ if version <? TLS_1_2 then Call_tls_prf_create_10
    else Call_tls_prf_create_12 (sa_prf algs);
    Call_create_signer (sa_mac algs);
    Call_create_signer (sa_mac algs) ]
  ++ match sa_encr algs with
     | ENCR_NULL => []
     | encr =>
         [ Call_create_crypter encr (sa_encr_size algs);
           Call_create_crypter encr (sa_encr_size algs) ]
     end.

(** An entry of the suite table is on offer when its MAC is enumerated and
    its encryption algorithm is [ENCR_NULL] or enumerated. *)
Definition offered (lib : crypto_factory_t) (algs : suite_algs_t) : Prop :=
  sa_mac algs ∈ signer_enumerator lib ∧
  (sa_encr algs = ENCR_NULL ∨ sa_encr algs ∈ crypter_enumerator lib).

(** * The local suite list *)

(** Appending [gen] to the first [length acc] entries of the work array. *)
Definition bounded_app (acc gen : list tls_cipher_suite_t)
  : option (list tls_cipher_suite_t) :=
  if decide (length (acc ++ gen) ≤ SUPPORTED_SIZE)%nat then Some (acc ++ gen)
  else None.

Lemma bounded_app_nil acc :
  (length acc ≤ SUPPORTED_SIZE)%nat → bounded_app acc [] = Some acc.
Proof.
  intros Hlen. unfold bounded_app. rewrite app_nil_r.
  case_decide; [done | lia].
Qed.

Lemma bounded_app_Some acc gen l :
  bounded_app acc gen = Some l →
  l = acc ++ gen ∧ (length l ≤ SUPPORTED_SIZE)%nat.
Proof.
  unfold bounded_app. case_decide; intros [= <-]. done.
Qed.

Lemma bounded_app_bind acc g1 g2 (k : list tls_cipher_suite_t → option (list tls_cipher_suite_t)) :
  (∀ a, (length a ≤ SUPPORTED_SIZE)%nat → k a = bounded_app a g2) →
  bounded_app acc g1 ≫= k = bounded_app acc (g1 ++ g2).
Proof.
  intros Hk. destruct (bounded_app acc g1) as [a|] eqn:Ha; simpl.
  - apply bounded_app_Some in Ha as [-> Hlen].
    rewrite Hk by done. unfold bounded_app. rewrite <- (assoc_L (++)). done.
  - unfold bounded_app in *. case_decide; [done|].
    case_decide; [|done]. rewrite !length_app in *. lia.
Qed.

Lemma push_bounded s acc : push s acc = bounded_app acc [s].
Proof.
  unfold push, bounded_app. rewrite length_app. simpl.
  destruct (Nat.ltb_spec (length acc) SUPPORTED_SIZE); case_decide; done || lia.
Qed.

Lemma mac_case_bounded mac acc :
  (length acc ≤ SUPPORTED_SIZE)%nat →
  mac_case mac acc = bounded_app acc (mac_suites mac).
Proof.
  intros Hlen. destruct mac; simpl; rewrite ?push_bounded; try done.
  by rewrite bounded_app_nil.
Qed.

Lemma encr_case_bounded mac encr acc :
  (length acc ≤ SUPPORTED_SIZE)%nat →
  encr_case mac encr acc = bounded_app acc (encr_suites mac encr).
Proof.
  intros Hlen.
  destruct encr, mac; simpl; rewrite ?push_bounded;
    try (by rewrite bounded_app_nil); try done.
  - apply (bounded_app_bind _ [_] [_]). intros a _. apply push_bounded.
  - apply (bounded_app_bind _ [_] [_]). intros a _. apply push_bounded.
Qed.

Lemma encrs_loop_bounded mac encrs : ∀ acc,
  (length acc ≤ SUPPORTED_SIZE)%nat →
  encrs_loop mac encrs acc = bounded_app acc (flat_map (encr_suites mac) encrs).
Proof.
  induction encrs as [|encr rest IH]; intros acc Hlen; simpl.
  - by rewrite bounded_app_nil.
  - rewrite encr_case_bounded by done. by apply bounded_app_bind.
Qed.

Lemma macs_loop_bounded lib macs : ∀ acc,
  (length acc ≤ SUPPORTED_SIZE)%nat →
  macs_loop lib macs acc
  = bounded_app acc (flat_map (expand_mac (crypter_enumerator lib)) macs).
Proof.
  induction macs as [|mac rest IH]; intros acc Hlen; simpl.
  - by rewrite bounded_app_nil.
  - rewrite mac_case_bounded by done. unfold expand_mac at 1.
    rewrite <- (assoc_L (++)). apply bounded_app_bind. intros a Ha.
    rewrite encrs_loop_bounded by done. by apply bounded_app_bind.
Qed.

(** The duplicate removal. *)
Lemma match_unique_elem_of s unique :
  match_unique s unique = bool_decide (s ∈ unique).
Proof.
  induction unique as [|u rest IH]; cbn [match_unique].
  - by rewrite bool_decide_eq_false_2 by apply not_elem_of_nil.
  - destruct (Z.eqb_spec s u) as [->|Hne].
    + by rewrite bool_decide_eq_true_2 by apply list_elem_of_here.
    + rewrite IH. apply bool_decide_ext. rewrite elem_of_cons. tauto.
Qed.

Lemma remove_duplicates_first_seen supported : ∀ unique,
  remove_duplicates supported unique
  = unique ++ filter (λ s, s ∉ unique) (first_seen supported).
Proof.
  induction supported as [|s rest IH]; intros unique; simpl.
  - by rewrite app_nil_r.
  - rewrite match_unique_elem_of. case_bool_decide as Hin.
    + rewrite IH. rewrite filter_cons_False by (intros Hn; by apply Hn).
      rewrite list_filter_filter. f_equal. apply list_filter_iff.
      intros x. split; [|by intros [? _]]. intros Hx. split; [done|].
      by intros ->.
    + rewrite IH, filter_cons_True by done.
      rewrite list_filter_filter, <- (assoc_L (++)). simpl. do 2 f_equal.
      apply list_filter_iff. intros x.
      rewrite elem_of_app, list_elem_of_singleton. tauto.
Qed.

Lemma elem_of_first_seen l : ∀ s, s ∈ first_seen l ↔ s ∈ l.
Proof.
  induction l as [|x rest IH]; intros s; simpl; [done|].
  rewrite !elem_of_cons, list_elem_of_filter, IH.
  destruct (decide (s = x)); tauto.
Qed.

Lemma NoDup_first_seen l : NoDup (first_seen l).
Proof.
  induction l as [|x rest IH]; simpl; [constructor|].
  constructor.
  - rewrite list_elem_of_filter. tauto.
  - by apply NoDup_filter.
Qed.

Lemma first_seen_sublist l : first_seen l `sublist_of` l.
Proof.
  induction l as [|x rest IH]; simpl; [done|].
  apply sublist_skip. etransitivity; [apply sublist_filter | done].
Qed.

Lemma length_first_seen l : (length (first_seen l) ≤ length l)%nat.
Proof. apply sublist_length, first_seen_sublist. Qed.

Lemma filter_not_in_nil (l : list tls_cipher_suite_t) :
  filter (λ s, s ∉ @nil tls_cipher_suite_t) l = l.
Proof.
  induction l as [|x rest IH]; [done|].
  rewrite filter_cons_True by apply not_elem_of_nil. by rewrite IH.
Qed.

(** [unique] never holds more entries than [supported]. *)
Lemma remove_duplicates_fits supported :
  (length (remove_duplicates supported []) ≤ length supported)%nat.
Proof.
  rewrite remove_duplicates_first_seen. simpl. rewrite filter_not_in_nil.
  apply length_first_seen.
Qed.

Lemma build_cipher_suite_list_fits lib o :
  (length (expand_suites lib) ≤ SUPPORTED_SIZE)%nat →
  build_cipher_suite_list lib o
  = Some (set_suites (first_seen (expand_suites lib)) o).
Proof.
  intros Hfit. unfold build_cipher_suite_list.
  rewrite macs_loop_bounded by (simpl; unfold SUPPORTED_SIZE; lia).
  unfold bounded_app. simpl. fold (expand_suites lib).
  case_decide; [|done]. simpl.
  rewrite remove_duplicates_first_seen. simpl.
  by rewrite filter_not_in_nil.
Qed.

Lemma build_cipher_suite_list_overflow lib o :
  (SUPPORTED_SIZE < length (expand_suites lib))%nat →
  build_cipher_suite_list lib o = None.
Proof.
  intros Hbig. unfold build_cipher_suite_list.
  rewrite macs_loop_bounded by (simpl; unfold SUPPORTED_SIZE; lia).
  unfold bounded_app. simpl. fold (expand_suites lib).
  case_decide; [lia|done].
Qed.

Lemma elem_of_expand_suites_aes_sha256 lib :
  AUTH_HMAC_SHA2_256_256 ∈ signer_enumerator lib →
  ENCR_AES_CBC ∈ crypter_enumerator lib →
  TLS_RSA_WITH_AES_128_CBC_SHA256 ∈ expand_suites lib.
Proof.
  intros Hmac Hencr. unfold expand_suites.
  apply list_elem_of_In, in_flat_map. exists AUTH_HMAC_SHA2_256_256.
  split; [by apply list_elem_of_In|]. apply list_elem_of_In.
  unfold expand_mac. apply elem_of_app. right.
  apply list_elem_of_In, in_flat_map. exists ENCR_AES_CBC.
  split; [by apply list_elem_of_In|]. simpl. by left.
Qed.

Lemma NoDup_count_occ_1 (l : list tls_cipher_suite_t) s :
  NoDup l → s ∈ l → count_occ Z.eq_dec l s = 1%nat.
Proof.
  intros Hnd Hin. apply NoDup_ListNoDup in Hnd.
  apply (proj1 (List.NoDup_count_occ' Z.eq_dec l) Hnd).
  by apply list_elem_of_In.
Qed.

(** An enumerator that yields every algorithm once stays far below the
    size of the work array. *)
Lemma occurrences_cons {A : Type} `{EqDecision A} (a x : A) l :
  occurrences a (x :: l)
  = ((if decide (x = a) then 1 else 0) + occurrences a l)%nat.
Proof. unfold occurrences. rewrite filter_cons. by case_decide. Qed.

Lemma occurrences_not_elem_of {A : Type} `{EqDecision A} (a : A) l :
  a ∉ l → occurrences a l = 0%nat.
Proof.
  induction l as [|x l IH]; [done|]. rewrite not_elem_of_cons.
  intros [Hne Hnot]. rewrite occurrences_cons, IH by done.
  by rewrite decide_False.
Qed.

Lemma occurrences_NoDup {A : Type} `{EqDecision A} (a : A) l :
  NoDup l → (occurrences a l ≤ 1)%nat.
Proof.
  induction 1 as [|x l Hx Hnd IH]; [unfold occurrences; simpl; lia|].
  rewrite occurrences_cons. case_decide as Heq; [|lia].
  subst. rewrite occurrences_not_elem_of by done. lia.
Qed.

Lemma length_encr_suites_flat mac encrs :
  (length (flat_map (encr_suites mac) encrs)
   ≤ match mac with
     | AUTH_HMAC_SHA1_160 =>
         2 * occurrences ENCR_AES_CBC encrs + occurrences ENCR_3DES encrs
     | AUTH_HMAC_SHA2_256_256 => 2 * occurrences ENCR_AES_CBC encrs
     | _ => 0
     end)%nat.
Proof.
  induction encrs as [|encr rest IH]; [simpl; lia|].
  simpl. rewrite length_app, !occurrences_cons.
  destruct encr, mac; simpl; repeat case_decide; try done; lia.
Qed.

Lemma length_expand_mac_flat encrs macs :
  (occurrences ENCR_AES_CBC encrs ≤ 1)%nat →
  (occurrences ENCR_3DES encrs ≤ 1)%nat →
  (length (flat_map (expand_mac encrs) macs)
   ≤ 4 * occurrences AUTH_HMAC_SHA1_160 macs
     + 3 * occurrences AUTH_HMAC_SHA2_256_256 macs
     + occurrences AUTH_HMAC_MD5_128 macs)%nat.
Proof.
  intros Haes Hdes. induction macs as [|mac rest IH]; [simpl; lia|].
  simpl. rewrite length_app, !occurrences_cons. unfold expand_mac at 1.
  rewrite length_app.
  pose proof (length_encr_suites_flat mac encrs) as Hencr.
  destruct mac; simpl in *; repeat case_decide; try done; lia.
Qed.

Lemma expand_suites_NoDup_fits lib :
  NoDup (signer_enumerator lib) → NoDup (crypter_enumerator lib) →
  (length (expand_suites lib) ≤ 8)%nat.
Proof.
  intros Hmacs Hencrs. unfold expand_suites.
  pose proof (occurrences_NoDup ENCR_AES_CBC _ Hencrs).
  pose proof (occurrences_NoDup ENCR_3DES _ Hencrs).
  pose proof (occurrences_NoDup AUTH_HMAC_SHA1_160 _ Hmacs).
  pose proof (occurrences_NoDup AUTH_HMAC_SHA2_256_256 _ Hmacs).
  pose proof (occurrences_NoDup AUTH_HMAC_MD5_128 _ Hmacs).
  pose proof (length_expand_mac_flat (crypter_enumerator lib)
                (signer_enumerator lib)).
  lia.
Qed.

(** C7: for what the factory enumerates, the expansion fitting the 64
    entries of the work array as it does for every enumeration without
    repeated algorithms ([expand_suites_NoDup_fits]), the built list is the
    expansion with every identifier kept once, at its first-seen place; the
    identifier the SHA-256 branch appends twice is in the list exactly
    once. *)
Theorem build_cipher_suite_list_dedup lib o :
  (length (expand_suites lib) ≤ SUPPORTED_SIZE)%nat →
  ∃ o', build_cipher_suite_list lib o = Some o' ∧
    o' = set_suites (suites o') o ∧
    suites o' = first_seen (expand_suites lib) ∧
    NoDup (suites o') ∧
    suites o' `sublist_of` expand_suites lib ∧
    (∀ s, s ∈ suites o' ↔ s ∈ expand_suites lib) ∧
    (AUTH_HMAC_SHA2_256_256 ∈ signer_enumerator lib →
     ENCR_AES_CBC ∈ crypter_enumerator lib →
     count_occ Z.eq_dec (suites o') TLS_RSA_WITH_AES_128_CBC_SHA256 = 1%nat).
Proof.
  intros Hfit. eexists. split; [by apply build_cipher_suite_list_fits|].
  simpl. repeat split.
  - apply NoDup_first_seen.
  - apply first_seen_sublist.
  - apply elem_of_first_seen.
  - apply elem_of_first_seen.
  - intros Hmac Hencr. apply NoDup_count_occ_1; [apply NoDup_first_seen|].
    by apply elem_of_first_seen, elem_of_expand_suites_aes_sha256.
Qed.

Lemma build_cipher_suite_list_dedup_witness :
  ∃ o', tls_crypto_create sample_lib sample_server = Some o' ∧
    suites o' =
      [ TLS_RSA_WITH_NULL_SHA; TLS_RSA_WITH_AES_128_CBC_SHA;
        TLS_RSA_WITH_AES_256_CBC_SHA; TLS_RSA_WITH_3DES_EDE_CBC_SHA;
        TLS_RSA_WITH_NULL_SHA256; TLS_RSA_WITH_AES_128_CBC_SHA256;
        TLS_RSA_WITH_NULL_MD5 ] ∧
    count_occ Z.eq_dec (suites o') TLS_RSA_WITH_AES_128_CBC_SHA256 = 1%nat.
Proof.
  destruct (build_cipher_suite_list_dedup sample_lib (init sample_server))
    as (o' & Hbuild & _ & Hsuites & _ & _ & _ & Honce).
  - vm_compute. lia.
  - exists o'. split; [exact Hbuild|]. split.
    + rewrite Hsuites. reflexivity.
    + apply Honce; vm_compute; set_solver.
Defined.


(** * Construction of the primitives and suite selection *)

Lemma constructible_nonzero lib v s : constructible lib v s = true → s ≠ 0.
Proof. intros H ->. vm_compute in H. done. Qed.

Ltac run_M :=
  unfold mbind, M_bind, mret, M_ret, made, modify_this, get_this; simpl.

Lemma create_ciphers_spec lib s w :
  ∃ w', create_ciphers lib s w
        = (constructible lib (get_version (tls (this w))) s, w') ∧
    same_session (this w) (this w') ∧
    suite (this w') = suite (this w) ∧
    (constructible lib (get_version (tls (this w))) s = true →
     negotiated (this w')).
Proof.
  unfold create_ciphers, constructible, negotiated, same_session.
  destruct (find_suite s) as [algs|]; [|by eexists].
  run_M.
  destruct (get_version (tls (this w)) <? TLS_1_2).
  - destruct (tls_prf_create_10 lib) as [p|];
      destruct (create_signer lib (sa_mac algs)) as [sg|];
      destruct (sa_encr algs) eqn:Hencr; simpl;
      try destruct (create_crypter lib _ (sa_encr_size algs)) as [c|]; simpl;
      eexists; (split; [reflexivity|]); simpl; intuition (eauto || done).
  - destruct (tls_prf_create_12 lib (sa_prf algs)) as [p|];
      destruct (create_signer lib (sa_mac algs)) as [sg|];
      destruct (sa_encr algs) eqn:Hencr; simpl;
      try destruct (create_crypter lib _ (sa_encr_size algs)) as [c|]; simpl;
      eexists; (split; [reflexivity|]); simpl; intuition (eauto || done).
Qed.

Lemma same_session_refl o : same_session o o.
Proof. by unfold same_session. Qed.

Lemma same_session_trans o1 o2 o3 :
  same_session o1 o2 → same_session o2 o3 → same_session o1 o3.
Proof.
  unfold same_session. intros (-> & -> & -> & ->) (-> & -> & -> & ->). done.
Qed.

Lemma same_session_set_suite s o : same_session o (set_suite s o).
Proof. by unfold same_session. Qed.

(** Is [mine] offered by the peer and constructible? *)
Lemma select_peer_loop_spec lib mine peer : ∀ w,
  ∃ w',
    select_peer_loop lib mine peer w
    = (if bool_decide (mine ∈ peer)
          && constructible lib (get_version (tls (this w))) mine
       then Some mine else None, w') ∧
    same_session (this w) (this w') ∧
    (if bool_decide (mine ∈ peer)
        && constructible lib (get_version (tls (this w))) mine
     then suite (this w') = mine ∧ negotiated (this w')
     else suite (this w') = suite (this w)) ∧
    (mine ∉ peer → w' = w).
Proof.
  induction peer as [|theirs rest IH]; intros w.
  - exists w. cbn [select_peer_loop].
    rewrite bool_decide_eq_false_2 by apply not_elem_of_nil.
    split_and!; done.
  - cbn [select_peer_loop]. destruct (Z.eqb_spec mine theirs) as [<-|Hne].
    + rewrite (bool_decide_eq_true_2 (mine ∈ mine :: rest))
        by apply list_elem_of_here.
      destruct (create_ciphers_spec lib mine w) as (w1 & Hrun & Hsame & Hsuite & Hneg).
      unfold mbind at 1, M_bind at 1. rewrite Hrun.
      destruct (constructible lib (get_version (tls (this w))) mine) eqn:Hc.
      * run_M. eexists. split; [reflexivity|]. simpl. split_and!.
        -- eapply same_session_trans; [done | apply same_session_set_suite].
        -- done.
        -- by apply Hneg.
        -- intros Hnot. exfalso. apply Hnot, list_elem_of_here.
      * destruct (IH w1) as (w2 & Hrun2 & Hsame2 & Hres2 & _).
        assert (Htls : get_version (tls (this w1)) = get_version (tls (this w)))
          by (destruct Hsame as (_ & -> & _); done).
        rewrite Htls, Hc, andb_false_r in Hrun2, Hres2.
        exists w2. rewrite Hrun2. simpl. split_and!.
        -- done.
        -- by eapply same_session_trans.
        -- congruence.
        -- intros Hnot. exfalso. apply Hnot, list_elem_of_here.
    + destruct (IH w) as (w2 & Hrun2 & Hsame2 & Hres2 & Hframe).
      assert (Hiff : bool_decide (mine ∈ theirs :: rest)
                     = bool_decide (mine ∈ rest)).
      { apply bool_decide_ext. rewrite elem_of_cons. tauto. }
      rewrite Hiff. exists w2. split_and!; try done.
      intros Hnot. apply Hframe. intros Hin. apply Hnot.
      by apply list_elem_of_further.
Qed.

Lemma select_spec_cons lib v mine rest peer :
  select_spec lib v (mine :: rest) peer
  = if bool_decide (mine ∈ peer) && constructible lib v mine then mine
    else select_spec lib v rest peer.
Proof.
  unfold select_spec. simpl.
  by destruct (bool_decide (mine ∈ peer) && constructible lib v mine).
Qed.

Lemma select_spec_nonzero lib v local peer :
  select_spec lib v local peer ≠ 0 →
  select_spec lib v local peer ∈ local ∧
  select_spec lib v local peer ∈ peer ∧
  constructible lib v (select_spec lib v local peer) = true.
Proof.
  induction local as [|mine rest IH]; [done|].
  rewrite select_spec_cons.
  destruct (bool_decide (mine ∈ peer) && constructible lib v mine) eqn:Hb.
  - intros _. apply andb_true_iff in Hb as [Hin Hc].
    apply bool_decide_eq_true in Hin. split_and!; try done.
    apply list_elem_of_here.
  - intros Hnz. destruct (IH Hnz) as (? & ? & ?). split_and!; try done.
    by apply list_elem_of_further.
Qed.

Lemma select_local_loop_spec lib local peer : ∀ w,
  ∃ w',
    select_local_loop lib local peer w
    = (select_spec lib (get_version (tls (this w))) local peer, w') ∧
    same_session (this w) (this w') ∧
    (select_spec lib (get_version (tls (this w))) local peer = 0 →
     suite (this w') = suite (this w)) ∧
    (select_spec lib (get_version (tls (this w))) local peer ≠ 0 →
     suite (this w')
     = select_spec lib (get_version (tls (this w))) local peer ∧
     negotiated (this w')) ∧
    ((∀ s, s ∈ local → s ∉ peer) → w' = w).
Proof.
  induction local as [|mine rest IH]; intros w.
  - exists w. simpl. run_M. split_and!; done.
  - cbn [select_local_loop]. rewrite select_spec_cons.
    destruct (select_peer_loop_spec lib mine peer w)
      as (w1 & Hrun & Hsame & Hres & Hframe).
    unfold mbind at 1, M_bind at 1. rewrite Hrun.
    destruct (bool_decide (mine ∈ peer)
              && constructible lib (get_version (tls (this w))) mine) eqn:Hb.
    + exists w1. run_M. destruct Hres as [Hsuite Hneg].
      apply andb_true_iff in Hb as [Hin Hc].
      apply constructible_nonzero in Hc.
      split_and!; try done.
      apply bool_decide_eq_true in Hin.
      intros Hdisj. exfalso. eapply Hdisj; [apply list_elem_of_here | done].
    + destruct (IH w1) as (w2 & Hrun2 & Hsame2 & Hzero & Hnz & Hframe2).
      assert (Htls : get_version (tls (this w1)) = get_version (tls (this w)))
        by (destruct Hsame as (_ & -> & _); done).
      rewrite Htls in Hrun2, Hzero, Hnz.
      exists w2. rewrite Hrun2. split_and!.
      * done.
      * by eapply same_session_trans.
      * intros Hz. rewrite (Hzero Hz). done.
      * done.
      * intros Hdisj.
        assert (w1 = w) as ->.
        { apply Hframe, Hdisj, list_elem_of_here. }
        apply Hframe2. intros s Hs. apply Hdisj. by apply list_elem_of_further.
Qed.

(** What [select_cipher_suite] returns and leaves behind. *)
Lemma select_cipher_suite_spec lib peer w :
  ∃ w',
    select_cipher_suite lib peer w
    = (select_spec lib (get_version (tls (this w))) (suites (this w)) peer, w') ∧
    same_session (this w) (this w') ∧
    (select_spec lib (get_version (tls (this w))) (suites (this w)) peer = 0 →
     suite (this w') = suite (this w)) ∧
    (select_spec lib (get_version (tls (this w))) (suites (this w)) peer ≠ 0 →
     suite (this w')
     = select_spec lib (get_version (tls (this w))) (suites (this w)) peer ∧
     negotiated (this w')) ∧
    ((∀ s, s ∈ suites (this w) → s ∉ peer) → w' = w).
Proof. apply select_local_loop_spec. Qed.

Lemma select_cipher_suite_negotiated lib peer w :
  (select_cipher_suite lib peer w).1 ≠ 0 →
  negotiated (this (select_cipher_suite lib peer w).2).
Proof.
  destruct (select_cipher_suite_spec lib peer w)
    as (w' & Hrun & _ & _ & Hnz & _).
  rewrite Hrun. simpl. intros Hr. by apply Hnz.
Qed.

Lemma select_spec_skip lib v before rest peer :
  (∀ s, s ∈ before → s ∈ peer → constructible lib v s = false) →
  select_spec lib v (before ++ rest) peer = select_spec lib v rest peer.
Proof.
  induction before as [|mine more IH]; intros Hfail; [done|].
  simpl. rewrite select_spec_cons.
  destruct (bool_decide (mine ∈ peer) && constructible lib v mine) eqn:Hb.
  - apply andb_true_iff in Hb as [Hin Hc]. apply bool_decide_eq_true in Hin.
    rewrite (Hfail mine) in Hc; [done | apply list_elem_of_here | done].
  - apply IH. intros s Hs. apply Hfail. by apply list_elem_of_further.
Qed.

Lemma select_spec_zero lib v local peer :
  select_spec lib v local peer = 0 →
  ∀ s, s ∈ local → s ∈ peer → constructible lib v s = false.
Proof.
  induction local as [|mine rest IH]; intros Hz s Hs Hin.
  - by apply elem_of_nil in Hs.
  - rewrite select_spec_cons in Hz.
    destruct (bool_decide (mine ∈ peer) && constructible lib v mine) eqn:Hb.
    + apply andb_true_iff in Hb as [_ Hc].
      by apply constructible_nonzero in Hc.
    + apply elem_of_cons in Hs as [->|Hs]; [|by apply IH].
      apply andb_false_iff in Hb as [Hb|Hb]; [|done].
      by apply bool_decide_eq_false in Hb.
Qed.

Lemma select_spec_first lib v local peer :
  select_spec lib v local peer ≠ 0 →
  ∃ before after,
    local = before ++ select_spec lib v local peer :: after ∧
    ∀ s, s ∈ before → s ∈ peer → constructible lib v s = false.
Proof.
  induction local as [|mine rest IH]; [done|].
  rewrite select_spec_cons.
  destruct (bool_decide (mine ∈ peer) && constructible lib v mine) eqn:Hb.
  - intros _. exists [], rest. split; [done|].
    intros s Hs. by apply elem_of_nil in Hs.
  - intros Hnz. destruct (IH Hnz) as (before & after & Heq & Hfail).
    exists (mine :: before), after. split; [by rewrite Heq at 1|].
    intros s Hs Hin. apply elem_of_cons in Hs as [->|Hs]; [|by apply Hfail].
    apply andb_false_iff in Hb as [Hb|Hb]; [|done].
    by apply bool_decide_eq_false in Hb.
Qed.

(** C4: selection returns the first suite, in the local order, that the
    peer offers and whose primitives can be constructed, and 0 when there is
    none; with the local order A, B, C and the peer offering C, B, it
    returns B and not C. *)
Theorem select_cipher_suite_local_order lib peer w :
  let v := get_version (tls (this w)) in
  let r := (select_cipher_suite lib peer w).1 in
  r = select_spec lib v (suites (this w)) peer ∧
  ((r = 0 ∧
    ∀ s, s ∈ suites (this w) → s ∈ peer → constructible lib v s = false) ∨
   (∃ before after,
      suites (this w) = before ++ r :: after ∧
      r ∈ peer ∧ constructible lib v r = true ∧
      ∀ s, s ∈ before → s ∈ peer → constructible lib v s = false)) ∧
  (∀ A B C,
     suites (this w) = [A; B; C] → peer = [C; B] →
     A ≠ B → A ≠ C → B ≠ C → constructible lib v B = true →
     r = B ∧ r ≠ C).
Proof.
  intros v r.
  destruct (select_cipher_suite_spec lib peer w) as (w' & Hrun & _).
  assert (Hr : r = select_spec lib v (suites (this w)) peer)
    by (unfold r; by rewrite Hrun).
  split_and!.
  - done.
  - destruct (decide (r = 0)) as [Hz|Hnz].
    + left. split; [done|]. rewrite Hr in Hz. by apply select_spec_zero.
    + right. rewrite Hr in Hnz |- *.
      destruct (select_spec_first _ _ _ _ Hnz) as (before & after & Heq & Hfail).
      destruct (select_spec_nonzero _ _ _ _ Hnz) as (_ & Hin & Hc).
      by exists before, after.
  - intros A B C Hlocal -> HAB HAC HBC HcB. rewrite Hr, Hlocal.
    rewrite !select_spec_cons.
    rewrite (bool_decide_eq_false_2 (A ∈ [C; B]))
      by (rewrite !elem_of_cons, elem_of_nil; tauto).
    rewrite (bool_decide_eq_true_2 (B ∈ [C; B]))
      by (rewrite !elem_of_cons; tauto).
    rewrite HcB. done.
Qed.

Lemma select_cipher_suite_local_order_witness :
  (select_cipher_suite sample_lib
     [TLS_RSA_WITH_AES_256_CBC_SHA; TLS_RSA_WITH_AES_128_CBC_SHA]
     (sample_world sample_server
        [TLS_RSA_WITH_NULL_MD5; TLS_RSA_WITH_AES_128_CBC_SHA;
         TLS_RSA_WITH_AES_256_CBC_SHA])).1
  = TLS_RSA_WITH_AES_128_CBC_SHA.
Proof.
  apply (select_cipher_suite_local_order sample_lib
           [TLS_RSA_WITH_AES_256_CBC_SHA; TLS_RSA_WITH_AES_128_CBC_SHA]
           (sample_world sample_server
              [TLS_RSA_WITH_NULL_MD5; TLS_RSA_WITH_AES_128_CBC_SHA;
               TLS_RSA_WITH_AES_256_CBC_SHA]));
    first [reflexivity | by vm_compute].
Defined.

(** C5: a suite that both sides list but whose primitives cannot be
    constructed does not end the selection: the loops go on, and the next
    suite that both sides list and that can be constructed is selected. *)
Theorem select_cipher_suite_skips_unavailable lib peer w
    before failing between later after :
  let v := get_version (tls (this w)) in
  suites (this w) = before ++ failing :: between ++ later :: after →
  failing ∈ peer → constructible lib v failing = false →
  later ∈ peer → constructible lib v later = true →
  (∀ s, s ∈ before ++ between → s ∈ peer → constructible lib v s = false) →
  ∃ w', select_cipher_suite lib peer w = (later, w') ∧
    later ≠ 0 ∧ suite (this w') = later ∧ negotiated (this w').
Proof.
  intros v Hlocal Hfin Hfc Hlin Hlc Hothers.
  destruct (select_cipher_suite_spec lib peer w)
    as (w' & Hrun & _ & _ & Hnz & _).
  fold v in Hrun, Hnz.
  assert (Hsel : select_spec lib v (suites (this w)) peer = later).
  { rewrite Hlocal.
    change (before ++ failing :: between ++ later :: after)
      with (before ++ (failing :: between) ++ later :: after).
    rewrite (assoc_L (++) before (failing :: between) (later :: after)).
    rewrite select_spec_skip.
    - rewrite select_spec_cons, bool_decide_eq_true_2, Hlc by done. done.
    - intros s Hs Hin. apply elem_of_app in Hs as [Hs|Hs].
      + apply Hothers; [|done]. apply elem_of_app. by left.
      + apply elem_of_cons in Hs as [->|Hs]; [done|].
        apply Hothers; [|done]. apply elem_of_app. by right. }
  rewrite Hsel in Hrun, Hnz.
  assert (later ≠ 0) by by eapply constructible_nonzero.
  exists w'. destruct Hnz as [? ?]; done.
Qed.

Lemma select_cipher_suite_skips_unavailable_witness :
  ∃ w', select_cipher_suite sample_lib_without_aes
          [TLS_RSA_WITH_AES_128_CBC_SHA; TLS_RSA_WITH_3DES_EDE_CBC_SHA]
          (sample_world sample_server
             [TLS_RSA_WITH_AES_128_CBC_SHA; TLS_RSA_WITH_3DES_EDE_CBC_SHA])
        = (TLS_RSA_WITH_3DES_EDE_CBC_SHA, w') ∧
    suite (this w') = TLS_RSA_WITH_3DES_EDE_CBC_SHA.
Proof.
  destruct (select_cipher_suite_skips_unavailable sample_lib_without_aes
              [TLS_RSA_WITH_AES_128_CBC_SHA; TLS_RSA_WITH_3DES_EDE_CBC_SHA]
              (sample_world sample_server
                 [TLS_RSA_WITH_AES_128_CBC_SHA; TLS_RSA_WITH_3DES_EDE_CBC_SHA])
              [] TLS_RSA_WITH_AES_128_CBC_SHA [] TLS_RSA_WITH_3DES_EDE_CBC_SHA [])
    as (w' & Hrun & _ & Hsuite & _).
  - reflexivity.
  - set_solver.
  - reflexivity.
  - set_solver.
  - reflexivity.
  - intros s Hs. by apply elem_of_nil in Hs.
  - exists w'. by split.
Defined.

(** C6: when no suite of the local list is in the peer's list, selection
    returns 0 and leaves the object and the record of calls as they were:
    no primitive has been constructed. *)
Theorem select_cipher_suite_no_common lib peer w :
  (∀ s, s ∈ suites (this w) → s ∉ peer) →
  select_cipher_suite lib peer w = (0, w).
Proof.
  intros Hdisj.
  destruct (select_cipher_suite_spec lib peer w)
    as (w' & Hrun & _ & _ & _ & Hframe).
  rewrite Hrun, (Hframe Hdisj). f_equal.
  rewrite <- (app_nil_r (suites (this w))), select_spec_skip; [done|].
  intros s Hs Hin. by destruct (Hdisj s Hs).
Qed.

Lemma select_cipher_suite_no_common_witness :
  select_cipher_suite sample_lib [TLS_RSA_WITH_NULL_SHA256]
    (sample_world sample_client [TLS_RSA_WITH_AES_128_CBC_SHA])
  = (0, sample_world sample_client [TLS_RSA_WITH_AES_128_CBC_SHA]).
Proof.
  apply (select_cipher_suite_no_common sample_lib [TLS_RSA_WITH_NULL_SHA256]
           (sample_world sample_client [TLS_RSA_WITH_AES_128_CBC_SHA])).
  intros s Hs. apply list_elem_of_singleton in Hs as ->.
  intros Hin. apply list_elem_of_singleton in Hin. vm_compute in Hin. done.
Defined.

(** C10: when selection returns 0, be it that the lists share no suite or
    that no shared suite could be constructed, the stored suite is the one
    stored before; a stored suite is replaced only by a suite that was
    constructed, which is then the one returned. *)
Theorem select_cipher_suite_keeps_suite lib peer w :
  let r := (select_cipher_suite lib peer w).1 in
  let w' := (select_cipher_suite lib peer w).2 in
  (r = 0 → suite (this w') = suite (this w)) ∧
  (r ≠ 0 → suite (this w') = r ∧
           constructible lib (get_version (tls (this w))) r = true).
Proof.
  intros r w'.
  destruct (select_cipher_suite_spec lib peer w)
    as (w1 & Hrun & _ & Hzero & Hnz & _).
  unfold r, w'. rewrite Hrun. simpl. split.
  - done.
  - intros Hr. split; [by apply Hnz|]. by apply select_spec_nonzero.
Qed.

Lemma select_cipher_suite_keeps_suite_witness :
  let w := {| this := set_suite TLS_RSA_WITH_NULL_SHA
                        (set_suites [TLS_RSA_WITH_AES_128_CBC_SHA]
                           (init sample_server));
              calls := [] |} in
  suite (this (select_cipher_suite sample_lib_without_aes
                 [TLS_RSA_WITH_AES_128_CBC_SHA] w).2)
  = TLS_RSA_WITH_NULL_SHA.
Proof.
  intros w.
  apply (select_cipher_suite_keeps_suite sample_lib_without_aes
           [TLS_RSA_WITH_AES_128_CBC_SHA] w).
  reflexivity.
Defined.

(** * Derivation of the master secret and of the keys *)

Lemma chunk_skip_drop (c : chunk_t) n : chunk_skip c n = drop n c.
Proof.
  unfold chunk_skip, chunk_empty.
  destruct (Nat.ltb_spec n (length c)); [done|].
  by rewrite drop_ge.
Qed.

Lemma length_prf_get_bytes lib p label seed n :
  length (prf_get_bytes lib p label seed n) = n.
Proof. unfold prf_get_bytes. by rewrite length_map, length_seq. Qed.

(** One run of [derive_master_secret] on an object whose PRF and signers
    exist, field by field. *)
Lemma derive_master_secret_run lib pm cr sr w p si so :
  prf (this w) = Some p →
  signer_in (this w) = Some si →
  signer_out (this w) = Some so →
  let o := this w in
  let mks := mac_key_len o in
  let eks := enc_key_len o in
  let ivs := iv_len o in
  let master := master_secret lib p pm cr sr in
  let kb := key_block lib p master cr sr ((mks + eks + ivs) * 2) in
  let sl := slices_of mks eks ivs kb in
  let server := is_server (tls o) in
  ∃ fr w',
    derive_master_secret lib pm cr sr w = Some (fr, w') ∧
    premaster_mem fr = pm ∧
    master_mem fr = replicate 48 x00 ∧
    key_block_mem fr = kb ∧
    block_left fr
    = drop (2 * mks + (if crypter_in o is Some _ then 2 * (eks + ivs) else 0))
        kb ∧
    calls w'
    = calls w ++
      [ Call_prf_set_key pm;
        Call_prf_get_bytes "master secret" (cr ++ sr) 48;
        Call_prf_set_key master;
        Call_prf_get_bytes "key expansion" (sr ++ cr) ((mks + eks + ivs) * 2) ] ∧
    prf (this w') = Some (prf_set_key p master) ∧
    signer_in (this w')
    = Some (signer_set_key si
              (inbound_of server (client_mac_key sl) (server_mac_key sl))) ∧
    signer_out (this w')
    = Some (signer_set_key so
              (outbound_of server (client_mac_key sl) (server_mac_key sl))) ∧
    (∀ ci co,
       crypter_in o = Some ci → crypter_out o = Some co →
       crypter_in (this w')
       = Some (crypter_set_key ci
                 (inbound_of server (client_enc_key sl) (server_enc_key sl))) ∧
       crypter_out (this w')
       = Some (crypter_set_key co
                 (outbound_of server (client_enc_key sl) (server_enc_key sl))) ∧
       (ivs ≠ 0%nat →
        iv_in (this w') = inbound_of server (client_iv sl) (server_iv sl) ∧
        iv_out (this w') = outbound_of server (client_iv sl) (server_iv sl))).
Proof.
  destruct w as [[sts st [v srv] pr sgi sgo ci co ivi ivo] cl].
  simpl. intros -> -> ->.
  unfold derive_master_secret, mac_key_len, enc_key_len, iv_len,
    master_secret, key_block, slices_of, slice, inbound_of, outbound_of,
    chunk_create, chunk_cata, chunk_clone, memset_zero, MASTER_SIZE.
  simpl. rewrite !chunk_skip_drop, !drop_drop.
  destruct co as [co|], ci as [ci|], srv, (v <? TLS_1_2); simpl.
  all: try destruct (Nat.eqb_spec (crypter_block_size co) 0) as [Hz|Hnz]; simpl.
  all: rewrite ?chunk_skip_drop, ?drop_drop.
  all: eexists _, _; split; [reflexivity|]; simpl.
  all: rewrite ?length_prf_get_bytes.
  all: unfold prf_set_key; simpl.
  all: repeat match goal with
       | |- context [prf_get_bytes ?l ?q "key expansion" ?sd ?n] =>
           generalize (prf_get_bytes l q "key expansion" sd n); intros kb
       end.
  all: rewrite ?drop_0, ?Nat.add_0_r, ?Nat.add_assoc.
  all: split_and!; try done.
  all: try (f_equal; lia).
  all: try (intros ci' co' Hci Hco; try discriminate Hci; try discriminate Hco;
            injection Hci as <-; injection Hco as <-;
            split_and!; try done; try lia).
Qed.

(** Slices that follow one another make up the block. *)
Lemma drop_slice (block : chunk_t) from len :
  drop from block = slice from len block ++ drop (from + len) block.
Proof. unfold slice. by rewrite <- drop_drop, take_drop. Qed.

Lemma length_slice (block : chunk_t) from len :
  (from + len ≤ length block)%nat → length (slice from len block) = len.
Proof. intros Hle. unfold slice. rewrite length_take, length_drop. lia. Qed.

Lemma slices_of_cover mks eks ivs (block : chunk_t) :
  length block = (2 * (mks + eks + ivs))%nat →
  let sl := slices_of mks eks ivs block in
  block = client_mac_key sl ++ server_mac_key sl ++ client_enc_key sl
          ++ server_enc_key sl ++ client_iv sl ++ server_iv sl ∧
  length (client_mac_key sl) = mks ∧ length (server_mac_key sl) = mks ∧
  length (client_enc_key sl) = eks ∧ length (server_enc_key sl) = eks ∧
  length (client_iv sl) = ivs ∧ length (server_iv sl) = ivs.
Proof.
  intros Hlen. simpl. split.
  - rewrite <- (drop_0 block) at 1.
    rewrite (drop_slice block 0 mks), (drop_slice block (0 + mks) mks),
      (drop_slice block (0 + mks + mks) eks),
      (drop_slice block (0 + mks + mks + eks) eks),
      (drop_slice block (0 + mks + mks + eks + eks) ivs),
      (drop_slice block (0 + mks + mks + eks + eks + ivs) ivs).
    rewrite (drop_ge block) by lia.
    by rewrite app_nil_r, ?Nat.add_0_l, ?Nat.add_0_r, ?Nat.add_assoc.
  - split_and!; apply length_slice; lia.
Qed.

Lemma negotiated_keyed o : negotiated o → keyed o.
Proof. unfold negotiated, keyed. tauto. Qed.

Lemma sample_negotiated_negotiated : negotiated (this sample_negotiated).
Proof. apply select_cipher_suite_negotiated. by vm_compute. Qed.

(** C1: the key block is what the PRF, keyed with the master secret,
    expands "key expansion" to, and the derivation loads its client-write
    MAC key, encryption key and IV into the inbound signer, crypter and IV
    when the local role is server, and into the outbound ones when it is
    client; the server-write slices go the opposite way.  The encryption
    keys are loaded when the crypters exist, the IVs when their length is
    not zero. *)
Theorem derive_master_secret_assigns_by_role lib pm cr sr w :
  keyed (this w) →
  ∃ p fr w', prf (this w) = Some p ∧
    derive_master_secret lib pm cr sr w = Some (fr, w') ∧
    let o := this w in
    let server := is_server (tls o) in
    let master :=
      prf_get_bytes lib (prf_set_key p pm) "master secret" (cr ++ sr) 48 in
    let block :=
      prf_get_bytes lib (prf_set_key p master) "key expansion" (sr ++ cr)
        ((mac_key_len o + enc_key_len o + iv_len o) * 2) in
    let sl := slices_of (mac_key_len o) (enc_key_len o) (iv_len o) block in
    key_block_mem fr = block ∧
    signer_key <$> signer_in (this w')
    = Some (inbound_of server (client_mac_key sl) (server_mac_key sl)) ∧
    signer_key <$> signer_out (this w')
    = Some (outbound_of server (client_mac_key sl) (server_mac_key sl)) ∧
    (is_Some (crypter_in o) → is_Some (crypter_out o) →
     crypter_key <$> crypter_in (this w')
     = Some (inbound_of server (client_enc_key sl) (server_enc_key sl)) ∧
     crypter_key <$> crypter_out (this w')
     = Some (outbound_of server (client_enc_key sl) (server_enc_key sl)) ∧
     (iv_len o ≠ 0%nat →
      iv_in (this w') = inbound_of server (client_iv sl) (server_iv sl) ∧
      iv_out (this w') = outbound_of server (client_iv sl) (server_iv sl))).
Proof.
  intros ([p Hp] & [si Hsi] & [so Hso]).
  destruct (derive_master_secret_run lib pm cr sr w p si so Hp Hsi Hso)
    as (fr & w' & Hrun & _ & _ & Hkb & _ & _ & _ & Hin & Hout & Hcr).
  exists p, fr, w'. split; [done|]. split; [done|]. cbv zeta.
  rewrite Hin, Hout. split_and!; try done.
  intros [ci Hci] [co Hco]. destruct (Hcr ci co Hci Hco) as (-> & -> & Hiv).
  done.
Qed.

Lemma derive_master_secret_assigns_by_role_witness :
  keyed (this sample_negotiated) ∧ keyed (this sample_negotiated_client) ∧
  (∃ fr w',
     derive_master_secret sample_lib sample_premaster sample_client_random
       sample_server_random sample_negotiated = Some (fr, w') ∧
     key_block_mem fr = sample_key_block ∧
     signer_key <$> signer_in (this w') = Some (take 20 sample_key_block) ∧
     signer_key <$> signer_out (this w')
     = Some (take 20 (drop 20 sample_key_block)) ∧
     crypter_key <$> crypter_in (this w')
     = Some (take 16 (drop 40 sample_key_block)) ∧
     crypter_key <$> crypter_out (this w')
     = Some (take 16 (drop 56 sample_key_block)) ∧
     iv_in (this w') = take 16 (drop 72 sample_key_block) ∧
     iv_out (this w') = take 16 (drop 88 sample_key_block)) ∧
  (∃ fr w',
     derive_master_secret sample_lib sample_premaster sample_client_random
       sample_server_random sample_negotiated_client = Some (fr, w') ∧
     key_block_mem fr = sample_key_block ∧
     signer_key <$> signer_out (this w') = Some (take 20 sample_key_block) ∧
     signer_key <$> signer_in (this w')
     = Some (take 20 (drop 20 sample_key_block)) ∧
     crypter_key <$> crypter_out (this w')
     = Some (take 16 (drop 40 sample_key_block)) ∧
     crypter_key <$> crypter_in (this w')
     = Some (take 16 (drop 56 sample_key_block)) ∧
     iv_out (this w') = take 16 (drop 72 sample_key_block) ∧
     iv_in (this w') = take 16 (drop 88 sample_key_block)).
Proof.
  assert (Hs : keyed (this sample_negotiated))
    by apply negotiated_keyed, sample_negotiated_negotiated.
  assert (Hc : keyed (this sample_negotiated_client))
    by (vm_compute; split_and!; by eexists).
  split; [exact Hs|]. split; [exact Hc|]. split.
  - destruct (derive_master_secret_assigns_by_role sample_lib sample_premaster
                sample_client_random sample_server_random sample_negotiated Hs)
      as (p & fr & w' & Hp & Hrun & Hkb & Hin & Hout & Hcr).
    vm_compute in Hp. injection Hp as <-.
    destruct Hcr as (Hcin & Hcout & Hiv); [by eexists | by eexists |].
    destruct Hiv as [Hivin Hivout]; [by vm_compute|].
    exists fr, w'. split; [exact Hrun|].
    split; [exact Hkb|]. split; [exact Hin|]. split; [exact Hout|].
    split; [exact Hcin|]. split; [exact Hcout|].
    split; [exact Hivin | exact Hivout].
  - destruct (derive_master_secret_assigns_by_role sample_lib sample_premaster
                sample_client_random sample_server_random
                sample_negotiated_client Hc)
      as (p & fr & w' & Hp & Hrun & Hkb & Hin & Hout & Hcr).
    vm_compute in Hp. injection Hp as <-.
    destruct Hcr as (Hcin & Hcout & Hiv); [by eexists | by eexists |].
    destruct Hiv as [Hivin Hivout]; [by vm_compute|].
    exists fr, w'. split; [exact Hrun|].
    split; [exact Hkb|]. split; [exact Hout|]. split; [exact Hin|].
    split; [exact Hcout|]. split; [exact Hcin|].
    split; [exact Hivout | exact Hivin].
Defined.

(** C2: the derivation keys the PRF with the premaster secret and expands
    once with the label "master secret" and the seed client random followed
    by server random, for 48 bytes; it then keys the PRF with the master
    secret and expands once with the label "key expansion" and the seed
    server random followed by client random.  No other call is made on the
    PRF. *)
Theorem derive_master_secret_expansions lib pm cr sr w :
  keyed (this w) →
  ∃ p fr w', prf (this w) = Some p ∧
    derive_master_secret lib pm cr sr w = Some (fr, w') ∧
    let o := this w in
    let master :=
      prf_get_bytes lib (prf_set_key p pm) "master secret" (cr ++ sr) 48 in
    let len := ((mac_key_len o + enc_key_len o + iv_len o) * 2)%nat in
    calls w'
    = calls w ++
      [ Call_prf_set_key pm;
        Call_prf_get_bytes "master secret" (cr ++ sr) 48;
        Call_prf_set_key master;
        Call_prf_get_bytes "key expansion" (sr ++ cr) len ] ∧
    length master = 48%nat ∧
    key_block_mem fr
    = prf_get_bytes lib (prf_set_key p master) "key expansion" (sr ++ cr) len.
Proof.
  intros ([p Hp] & [si Hsi] & [so Hso]).
  destruct (derive_master_secret_run lib pm cr sr w p si so Hp Hsi Hso)
    as (fr & w' & Hrun & _ & _ & Hkb & _ & Hcalls & _).
  exists p, fr, w'. split_and!; try done.
Qed.

Lemma derive_master_secret_expansions_witness :
  keyed (this sample_negotiated) ∧
  ∃ master fr w',
    derive_master_secret sample_lib sample_premaster sample_client_random
      sample_server_random sample_negotiated = Some (fr, w') ∧
    drop 5 (calls w')
    = [ Call_prf_set_key sample_premaster;
        Call_prf_get_bytes "master secret"
          (sample_client_random ++ sample_server_random) 48;
        Call_prf_set_key master;
        Call_prf_get_bytes "key expansion"
          (sample_server_random ++ sample_client_random) 104 ].
Proof.
  assert (Hk : keyed (this sample_negotiated))
    by apply negotiated_keyed, sample_negotiated_negotiated.
  split; [exact Hk|].
  destruct (derive_master_secret_expansions sample_lib sample_premaster
              sample_client_random sample_server_random sample_negotiated Hk)
    as (p & fr & w' & Hp & Hrun & Hcalls & _ & _).
  eexists _, fr, w'. split; [exact Hrun|]. rewrite Hcalls. reflexivity.
Defined.

(** C3: after a negotiation, which leaves the object [negotiated]
    ([select_cipher_suite_negotiated]), the key block is what the PRF, keyed
    with the master secret, expands "key expansion" to, for twice the sum of
    the MAC key length, the encryption key length and the IV length, the IV
    length being zero unless the version is below TLS 1.2.  The block is the
    client MAC key, the server MAC key, the client encryption key, the
    server encryption key, the client IV and the server IV, one after the
    other, each of its full length; the keys loaded are these slices, and
    once they are taken nothing of the block is left. *)
Theorem key_block_sliced_exactly lib pm cr sr w :
  negotiated (this w) →
  ∃ p fr w', prf (this w) = Some p ∧
    derive_master_secret lib pm cr sr w = Some (fr, w') ∧
    let o := this w in
    let mks := mac_key_len o in
    let eks := enc_key_len o in
    let ivs := iv_len o in
    let server := is_server (tls o) in
    let master :=
      prf_get_bytes lib (prf_set_key p pm) "master secret" (cr ++ sr) 48 in
    let kb := key_block_mem fr in
    let sl := slices_of mks eks ivs kb in
    kb = prf_get_bytes lib (prf_set_key p master) "key expansion" (sr ++ cr)
           ((mks + eks + ivs) * 2) ∧
    length kb = (2 * (mks + eks + ivs))%nat ∧
    (ivs ≠ 0%nat → get_version (tls o) < TLS_1_2) ∧
    kb = client_mac_key sl ++ server_mac_key sl ++ client_enc_key sl
         ++ server_enc_key sl ++ client_iv sl ++ server_iv sl ∧
    length (client_mac_key sl) = mks ∧ length (server_mac_key sl) = mks ∧
    length (client_enc_key sl) = eks ∧ length (server_enc_key sl) = eks ∧
    length (client_iv sl) = ivs ∧ length (server_iv sl) = ivs ∧
    block_left fr = [] ∧
    signer_key <$> (if server then signer_in (this w') else signer_out (this w'))
    = Some (client_mac_key sl) ∧
    signer_key <$> (if server then signer_out (this w') else signer_in (this w'))
    = Some (server_mac_key sl) ∧
    (is_Some (crypter_out o) →
     crypter_key
       <$> (if server then crypter_in (this w') else crypter_out (this w'))
     = Some (client_enc_key sl) ∧
     crypter_key
       <$> (if server then crypter_out (this w') else crypter_in (this w'))
     = Some (server_enc_key sl) ∧
     (ivs ≠ 0%nat →
      (if server then iv_in (this w') else iv_out (this w')) = client_iv sl ∧
      (if server then iv_out (this w') else iv_in (this w')) = server_iv sl)).
Proof.
  intros ([p Hp] & [si Hsi] & [so Hso] & Hboth).
  destruct (derive_master_secret_run lib pm cr sr w p si so Hp Hsi Hso)
    as (fr & w' & Hrun & _ & _ & Hkb & Hleft & _ & _ & Hin & Hout & Hcr).
  exists p, fr, w'. split; [done|]. split; [done|]. cbv zeta.
  assert (Hlen : length (key_block_mem fr)
                 = (2 * (mac_key_len (this w) + enc_key_len (this w)
                         + iv_len (this w)))%nat).
  { rewrite Hkb. unfold key_block. rewrite length_prf_get_bytes. lia. }
  destruct (slices_of_cover _ _ _ _ Hlen)
    as (Hcat & Hl1 & Hl2 & Hl3 & Hl4 & Hl5 & Hl6).
  rewrite <- Hkb in Hleft, Hin, Hout, Hcr.
  split_and!; try done.
  - unfold iv_len. destruct (crypter_out (this w)); [|by intros []].
    destruct (Z.ltb_spec (get_version (tls (this w))) TLS_1_2); [done|].
    by intros [].
  - rewrite Hleft. apply drop_ge. rewrite Hlen.
    destruct (crypter_in (this w)) as [ci|] eqn:Hci; [lia|].
    assert (Hco : crypter_out (this w) = None).
    { destruct (crypter_out (this w)) as [co|]; [|done].
      destruct (proj2 Hboth) as [? [=]]. by eexists. }
    unfold enc_key_len, iv_len. rewrite Hco. simpl. lia.
  - rewrite Hin, Hout. by destruct (is_server (tls (this w))).
  - rewrite Hin, Hout. by destruct (is_server (tls (this w))).
  - intros Hco. destruct (proj2 Hboth Hco) as [ci Hci]. destruct Hco as [co Hco].
    destruct (Hcr ci co Hci Hco) as (Hcin & Hcout & Hiv).
    rewrite Hcin, Hcout. split_and!.
    + by destruct (is_server (tls (this w))).
    + by destruct (is_server (tls (this w))).
    + intros Hnz. destruct (Hiv Hnz) as [-> ->].
      by destruct (is_server (tls (this w))).
Qed.

Lemma key_block_sliced_exactly_witness :
  negotiated (this sample_negotiated) ∧
  ∃ fr w' k1 k2 k3 k4,
    derive_master_secret sample_lib sample_premaster sample_client_random
      sample_server_random sample_negotiated = Some (fr, w') ∧
    key_block_mem fr = sample_key_block ∧
    length (key_block_mem fr) = 104%nat ∧
    block_left fr = [] ∧
    signer_key <$> signer_in (this w') = Some k1 ∧
    signer_key <$> signer_out (this w') = Some k2 ∧
    crypter_key <$> crypter_in (this w') = Some k3 ∧
    crypter_key <$> crypter_out (this w') = Some k4 ∧
    k1 ++ k2 ++ k3 ++ k4 ++ iv_in (this w') ++ iv_out (this w')
    = sample_key_block ∧
    length k1 = 20%nat ∧ length k2 = 20%nat ∧
    length k3 = 16%nat ∧ length k4 = 16%nat ∧
    length (iv_in (this w')) = 16%nat ∧ length (iv_out (this w')) = 16%nat.
Proof.
  split; [exact sample_negotiated_negotiated|].
  destruct (key_block_sliced_exactly sample_lib sample_premaster
              sample_client_random sample_server_random sample_negotiated
              sample_negotiated_negotiated)
    as (p & fr & w' & Hp & Hrun & Hprf & Hlen & _ & Hcat & Hl1 & Hl2 & Hl3
        & Hl4 & Hl5 & Hl6 & Hleft & Hk1 & Hk2 & Hcr).
  vm_compute in Hp. injection Hp as <-.
  destruct Hcr as (Hk3 & Hk4 & Hiv); [by eexists|].
  destruct Hiv as [Hiv1 Hiv2]; [by vm_compute|].
  pose proof (Hiv1 : iv_in (this w') = _) as Hin.
  pose proof (Hiv2 : iv_out (this w') = _) as Hout.
  exists fr, w'. eexists _, _, _, _.
  split; [exact Hrun|]. split; [exact Hprf|]. split; [exact Hlen|].
  split; [exact Hleft|]. split; [exact Hk1|]. split; [exact Hk2|].
  split; [exact Hk3|]. split; [exact Hk4|].
  rewrite Hin, Hout.
  split; [rewrite <- Hcat; exact Hprf|].
  split; [exact Hl1|]. split; [exact Hl2|]. split; [exact Hl3|].
  split; [exact Hl4|]. split; [exact Hl5 | exact Hl6].
Defined.

(** C8 (as amended): when the derivation returns, the 48 bytes of [master]
    are zero, and they were zeroed after the PRF had been keyed with the
    master secret, which the PRF keeps as its key; the bytes of the
    premaster secret are as the caller passed them. *)
Theorem derive_master_secret_zeroes_master lib pm cr sr w :
  keyed (this w) →
  ∃ p fr w', prf (this w) = Some p ∧
    derive_master_secret lib pm cr sr w = Some (fr, w') ∧
    master_mem fr = replicate 48 x00 ∧
    prf_key <$> prf (this w') = Some (master_secret lib p pm cr sr) ∧
    Call_prf_set_key (master_secret lib p pm cr sr) ∈ calls w' ∧
    premaster_mem fr = pm.
Proof.
  intros ([p Hp] & [si Hsi] & [so Hso]).
  destruct (derive_master_secret_run lib pm cr sr w p si so Hp Hsi Hso)
    as (fr & w' & Hrun & Hpm & Hmaster & _ & _ & Hcalls & Hprf & _).
  exists p, fr, w'. rewrite Hprf, Hcalls. split_and!; try done.
  apply elem_of_app. right. set_solver.
Qed.

Lemma derive_master_secret_zeroes_master_witness :
  keyed (this sample_negotiated) ∧
  ∃ fr w',
    derive_master_secret sample_lib sample_premaster sample_client_random
      sample_server_random sample_negotiated = Some (fr, w') ∧
    master_mem fr = replicate 48 x00 ∧
    premaster_mem fr = sample_premaster.
Proof.
  assert (Hk : keyed (this sample_negotiated))
    by apply negotiated_keyed, sample_negotiated_negotiated.
  split; [exact Hk|].
  destruct (derive_master_secret_zeroes_master sample_lib sample_premaster
              sample_client_random sample_server_random sample_negotiated Hk)
    as (p & fr & w' & _ & Hrun & Hmaster & _ & _ & Hpm).
  exists fr, w'. split; [exact Hrun|]. split; [exact Hmaster | exact Hpm].
Defined.

(** C8, as stated, fails: the premaster secret is not zeroed. *)
Lemma derive_master_secret_leaves_premaster :
  ∃ fr w',
    derive_master_secret sample_lib sample_premaster sample_client_random
      sample_server_random sample_negotiated = Some (fr, w') ∧
    premaster_mem fr = [x03; x01] ++ replicate 46 x2a ∧
    premaster_mem fr ≠ replicate 48 x00.
Proof.
  eexists _, _. split; [vm_compute; reflexivity|].
  split; [reflexivity|]. vm_compute. discriminate.
Qed.

(** * The CHILD_SA hand-off *)

(** C9: destroying a CHILD_SA that was marked as rekeyed leaves the
    installed policies as they are; destroying one that was never marked
    removes its policies. *)
Theorem destroy_rekeyed_keeps_policy (sa : ChildSa.child_sa_t)
    (successor : ChildSa.reqid_t) (k : ChildSa.kernel_t) :
  ChildSa.installed_policies
    (ChildSa.destroy (ChildSa.set_rekeyed sa successor) k)
  = ChildSa.installed_policies k ∧
  (ChildSa.rekeyed sa = None →
   ∀ p, p ∈ ChildSa.policies sa →
        p ∉ ChildSa.installed_policies (ChildSa.destroy sa k)).
Proof.
  split; [done|].
  intros Hnot p Hp. unfold ChildSa.destroy. rewrite Hnot. simpl.
  rewrite elem_of_difference, elem_of_list_to_set. tauto.
Qed.

Lemma destroy_rekeyed_keeps_policy_witness :
  let k1 := ChildSa.destroy (ChildSa.set_rekeyed ChildSa.sample_old_sa 2)
              ChildSa.sample_kernel in
  ChildSa.installed_policies k1 = {[ (10, 20) ]} ∧
  (10, 20) ∉ ChildSa.installed_policies
               (ChildSa.destroy ChildSa.sample_new_sa k1).
Proof.
  intros k1. split.
  - apply (destroy_rekeyed_keeps_policy ChildSa.sample_old_sa 2
             ChildSa.sample_kernel).
  - apply (destroy_rekeyed_keeps_policy ChildSa.sample_new_sa 0 k1).
    + reflexivity.
    + apply list_elem_of_here.
Defined.

(** * Further properties of the session-key code *)

(** ** The suite table and the suites on offer *)

Lemma find_suite_in_Some table s algs :
  find_suite_in table s = Some algs → algs ∈ table ∧ sa_suite algs = s.
Proof.
  induction table as [|a rest IH]; simpl; [done|].
  destruct (Z.eqb_spec (sa_suite a) s) as [Heq|Hne].
  - intros [= <-]. split; [apply list_elem_of_here | done].
  - intros Hfind. destruct (IH Hfind). split; [|done].
    by apply list_elem_of_further.
Qed.

Ltac pick_entry :=
  apply list_elem_of_here + (apply list_elem_of_further; pick_entry).

(** X1: [find_suite] answers with an entry of the table that carries the
    identifier asked for, and every entry of the table is found under its
    own identifier: no entry is hidden behind another one. *)
Theorem find_suite_iff s algs :
  find_suite s = Some algs ↔ algs ∈ suite_algs ∧ sa_suite algs = s.
Proof.
  split; [apply find_suite_in_Some|].
  intros [Hin <-]. unfold suite_algs in Hin.
  repeat (apply elem_of_cons in Hin as [->|Hin]; [reflexivity|]).
  by apply elem_of_nil in Hin.
Qed.

Lemma find_suite_iff_witness :
  find_suite TLS_RSA_WITH_AES_256_CBC_SHA
  = Some {| sa_suite := TLS_RSA_WITH_AES_256_CBC_SHA;
            sa_hash := HASH_SHA1; sa_prf := PRF_HMAC_SHA1;
            sa_mac := AUTH_HMAC_SHA1_160;
            sa_encr := ENCR_AES_CBC; sa_encr_size := 32 |}.
Proof.
  apply find_suite_iff. split; [|reflexivity].
  unfold suite_algs. pick_entry.
Defined.

Lemma elem_of_flat_map {A B : Type} (f : A → list B) (l : list A) (y : B) :
  y ∈ flat_map f l ↔ ∃ x, x ∈ l ∧ y ∈ f x.
Proof.
  rewrite list_elem_of_In, in_flat_map. split.
  - intros (x & Hx & Hy). exists x. by rewrite !list_elem_of_In.
  - intros (x & Hx & Hy). exists x. by rewrite <- !list_elem_of_In.
Qed.

Lemma elem_of_expand_suites lib s :
  s ∈ expand_suites lib ↔
  ∃ mac, mac ∈ signer_enumerator lib ∧
    (s ∈ mac_suites mac ∨
     ∃ encr, encr ∈ crypter_enumerator lib ∧ s ∈ encr_suites mac encr).
Proof.
  unfold expand_suites. rewrite elem_of_flat_map.
  apply exist_proper. intros mac. unfold expand_mac.
  by rewrite elem_of_app, elem_of_flat_map.
Qed.

Lemma expand_suites_offered lib s :
  s ∈ expand_suites lib ↔
  ∃ algs, algs ∈ suite_algs ∧ sa_suite algs = s ∧ offered lib algs.
Proof.
  rewrite elem_of_expand_suites. unfold offered. split.
  - intros (mac & Hmac & [Hs | (encr & Hencr & Hs)]).
    + destruct mac; simpl in Hs;
        repeat (apply elem_of_cons in Hs as [->|Hs]);
        try (by apply elem_of_nil in Hs);
        (eexists; split; [unfold suite_algs; pick_entry|];
         split; [reflexivity|]; simpl; split; [exact Hmac | by left]).
    + destruct encr, mac; simpl in Hs;
        repeat (apply elem_of_cons in Hs as [->|Hs]);
        try (by apply elem_of_nil in Hs);
        (eexists; split; [unfold suite_algs; pick_entry|];
         split; [reflexivity|]; simpl; split; [exact Hmac | by right]).
  - intros (algs & Hin & <- & Hmac & Hencr). unfold suite_algs in Hin.
    repeat (apply elem_of_cons in Hin as [->|Hin]);
      try (by apply elem_of_nil in Hin); simpl in *;
      (eexists; split; [exact Hmac|]);
      first [ left; simpl; pick_entry
            | destruct Hencr as [Hnull|Hencr]; [discriminate Hnull|];
              right; eexists; split; [exact Hencr|]; simpl; pick_entry ].
Qed.

(** X2: the list built holds exactly the identifiers of the entries of the
    suite table whose MAC the factory enumerates and whose encryption
    algorithm is [ENCR_NULL] or enumerated; the key size of an entry plays
    no part. *)
Theorem build_cipher_suite_list_offered lib o :
  (length (expand_suites lib) ≤ SUPPORTED_SIZE)%nat →
  ∃ o', build_cipher_suite_list lib o = Some o' ∧
    ∀ s, s ∈ suites o' ↔
         ∃ algs, algs ∈ suite_algs ∧ sa_suite algs = s ∧ offered lib algs.
Proof.
  intros Hfit. eexists. split; [by apply build_cipher_suite_list_fits|].
  intros s. simpl. by rewrite elem_of_first_seen, expand_suites_offered.
Qed.

Lemma build_cipher_suite_list_offered_witness :
  ∃ o', tls_crypto_create sample_lib sample_server = Some o' ∧
    TLS_RSA_WITH_AES_256_CBC_SHA ∈ suites o'.
Proof.
  destruct (build_cipher_suite_list_offered sample_lib (init sample_server))
    as (o' & Hbuild & Hiff).
  - vm_compute. lia.
  - exists o'. split; [exact Hbuild|]. apply Hiff.
    eexists; split; [unfold suite_algs; pick_entry|];
      split; [reflexivity|]; split; simpl; [pick_entry | right; pick_entry].
Defined.

(** X3: whatever the factory enumerates, as long as the work array holds
    it, the list built has at most seven entries, the number of entries of
    the suite table, and [get_cipher_suites] returns that list with its
    length. *)
Theorem get_cipher_suites_at_most_seven lib o :
  (length (expand_suites lib) ≤ SUPPORTED_SIZE)%nat →
  ∃ o', build_cipher_suite_list lib o = Some o' ∧
    (get_cipher_suites o').1 = first_seen (expand_suites lib) ∧
    (get_cipher_suites o').2 = length (get_cipher_suites o').1 ∧
    ((get_cipher_suites o').2 ≤ 7)%nat.
Proof.
  intros Hfit. eexists. split; [by apply build_cipher_suite_list_fits|].
  simpl. split_and!; try done.
  change 7%nat with (length (sa_suite <$> suite_algs)).
  apply submseteq_length, NoDup_submseteq; [apply NoDup_first_seen|].
  intros s Hs. apply elem_of_first_seen, expand_suites_offered in Hs
    as (algs & Hin & <- & _).
  by apply list_elem_of_fmap_2.
Qed.

Lemma get_cipher_suites_at_most_seven_witness :
  ∃ o', tls_crypto_create sample_lib sample_server = Some o' ∧
    (get_cipher_suites o').2 = 7%nat.
Proof.
  destruct (get_cipher_suites_at_most_seven sample_lib (init sample_server))
    as (o' & Hbuild & Hlist & Hcount & _).
  - vm_compute. lia.
  - exists o'. split; [exact Hbuild|]. rewrite Hcount, Hlist. reflexivity.
Defined.

(** ** What the construction of the primitives leaves in the object *)

Lemma create_ciphers_unknown lib s w :
  find_suite s = None → create_ciphers lib s w = (false, w).
Proof. intros Hnone. unfold create_ciphers. by rewrite Hnone. Qed.

Lemma create_ciphers_true lib s w w' :
  create_ciphers lib s w = (true, w') →
  ∃ algs, find_suite s = Some algs ∧ built lib algs (this w') ∧
    same_session (this w) (this w') ∧ suite (this w') = suite (this w) ∧
    calls w'
    = calls w ++ create_ciphers_calls (get_version (tls (this w))) algs.
Proof.
  unfold create_ciphers, built, prf_for, crypter_for, create_ciphers_calls,
    same_session.
  destruct (find_suite s) as [algs|]; [|done].
  run_M.
  destruct (get_version (tls (this w)) <? TLS_1_2) eqn:Hv.
  - destruct (tls_prf_create_10 lib) as [p|] eqn:Hp;
      destruct (create_signer lib (sa_mac algs)) as [sg|] eqn:Hsg;
      destruct (sa_encr algs) eqn:Hencr; simpl;
      try destruct (create_crypter lib _ (sa_encr_size algs)) as [c|] eqn:Hc;
      simpl; intros [= <-]; exists algs; simpl; rewrite ?Hv, ?Hencr;
      rewrite <- ?(assoc_L (++)); simpl;
      split_and!; eauto; done.
  - destruct (tls_prf_create_12 lib (sa_prf algs)) as [p|] eqn:Hp;
      destruct (create_signer lib (sa_mac algs)) as [sg|] eqn:Hsg;
      destruct (sa_encr algs) eqn:Hencr; simpl;
      try destruct (create_crypter lib _ (sa_encr_size algs)) as [c|] eqn:Hc;
      simpl; intros [= <-]; exists algs; simpl; rewrite ?Hv, ?Hencr;
      rewrite <- ?(assoc_L (++)); simpl;
      split_and!; eauto; done.
Qed.

Lemma create_ciphers_without_prf lib s w algs :
  find_suite s = Some algs →
  prf_for lib (get_version (tls (this w))) algs = None →
  ∃ w', create_ciphers lib s w = (false, w') ∧
    prf (this w') = None ∧
    same_session (this w) (this w') ∧ suite (this w') = suite (this w) ∧
    signer_in (this w') = signer_in (this w) ∧
    signer_out (this w') = signer_out (this w) ∧
    crypter_in (this w') = crypter_in (this w) ∧
    crypter_out (this w') = crypter_out (this w).
Proof.
  intros Hfind. unfold create_ciphers, prf_for, same_session. rewrite Hfind.
  run_M. destruct (get_version (tls (this w)) <? TLS_1_2);
    intros ->; simpl; eexists; (split; [reflexivity|]); by simpl.
Qed.

Lemma built_set_suite lib algs s o :
  built lib algs o → built lib algs (set_suite s o).
Proof. by unfold built. Qed.

Lemma select_peer_loop_built lib mine peer : ∀ w r w',
  select_peer_loop lib mine peer w = (Some r, w') →
  r = mine ∧ ∃ algs, find_suite r = Some algs ∧ built lib algs (this w').
Proof.
  induction peer as [|theirs rest IH]; intros w r w'; cbn [select_peer_loop].
  - by run_M.
  - destruct (mine =? theirs); [|apply IH].
    unfold mbind at 1, M_bind at 1.
    destruct (create_ciphers lib mine w) as [[] w1] eqn:Hrun; [|apply IH].
    run_M. intros [= <- <-]. split; [done|].
    destruct (create_ciphers_true _ _ _ _ Hrun) as (algs & Hfind & Hb & _).
    exists algs. split; [done|]. by apply built_set_suite.
Qed.

Lemma select_local_loop_built lib local peer : ∀ w r w',
  select_local_loop lib local peer w = (r, w') → r ≠ 0 →
  ∃ algs, find_suite r = Some algs ∧ built lib algs (this w').
Proof.
  induction local as [|mine rest IH]; intros w r w'; cbn [select_local_loop].
  - run_M. by intros [= <- <-].
  - unfold mbind at 1, M_bind at 1.
    destruct (select_peer_loop lib mine peer w) as [[sel|] w1] eqn:Hrun.
    + run_M. intros [= <- <-] _.
      by destruct (select_peer_loop_built _ _ _ _ _ _ Hrun) as [_ ?].
    + apply IH.
Qed.

(** X4: when selection returns a suite, the object stores it and holds the
    primitives of that suite's table entry, all constructed: the TLS 1.0
    PRF below TLS 1.2 and the PRF of the suite otherwise, two signers of
    the suite's MAC, and two crypters of the suite's algorithm and key
    size, or no crypter at all when the algorithm is [ENCR_NULL]. *)
Theorem select_cipher_suite_built lib peer w :
  let v := get_version (tls (this w)) in
  let r := (select_cipher_suite lib peer w).1 in
  let o' := this (select_cipher_suite lib peer w).2 in
  r ≠ 0 →
  ∃ algs, find_suite r = Some algs ∧ suite o' = r ∧
    get_prf o' = prf_for lib v algs ∧ is_Some (get_prf o') ∧
    signer_in o' = create_signer lib (sa_mac algs) ∧
    signer_out o' = create_signer lib (sa_mac algs) ∧
    is_Some (signer_in o') ∧
    crypter_in o' = crypter_for lib algs ∧
    crypter_out o' = crypter_for lib algs ∧
    (sa_encr algs = ENCR_NULL → crypter_in o' = None ∧ crypter_out o' = None) ∧
    (sa_encr algs ≠ ENCR_NULL → is_Some (crypter_in o')).
Proof.
  intros v r o' Hr.
  destruct (select_cipher_suite_spec lib peer w)
    as (w' & Hrun & Hsame & _ & Hnz & _).
  unfold r, o' in *. rewrite Hrun in *. simpl in *.
  destruct (Hnz Hr) as [Hsuite _].
  destruct (select_local_loop_built _ _ _ _ _ _ Hrun Hr)
    as (algs & Hfind & Hprf & Hp & Hsi & Hsis & Hso & Hci & Hco & Hcis).
  destruct Hsame as (_ & Htls & _). rewrite Htls in Hprf.
  exists algs. unfold get_prf. split_and!; try done.
  intros Hnull. rewrite Hci, Hco. unfold crypter_for. by rewrite Hnull.
Qed.

Lemma select_cipher_suite_built_witness :
  crypter_in (this sample_negotiated_null) = None ∧
  crypter_out (this sample_negotiated_null) = None.
Proof.
  destruct (select_cipher_suite_built sample_lib [TLS_RSA_WITH_NULL_SHA256]
              (sample_world sample_client [TLS_RSA_WITH_NULL_SHA256]))
    as (algs & Hfind & _ & _ & _ & _ & _ & _ & _ & _ & Hnull & _).
  - by vm_compute.
  - apply Hnull. vm_compute in Hfind. by injection Hfind as <-.
Defined.

(** ** A failed selection *)

Lemma select_peer_loop_without_prf lib mine peer : ∀ w,
  (∀ algs, find_suite mine = Some algs →
           prf_for lib (get_version (tls (this w))) algs = None) →
  ∃ w', select_peer_loop lib mine peer w = (None, w') ∧
    same_session (this w) (this w') ∧ suite (this w') = suite (this w) ∧
    (prf (this w) = None → prf (this w') = None) ∧
    (mine ∈ peer → is_Some (find_suite mine) → prf (this w') = None).
Proof.
  induction peer as [|theirs rest IH]; intros w Hfail;
    cbn [select_peer_loop].
  - exists w. split_and!; try done. intros Hin. by apply elem_of_nil in Hin.
  - destruct (Z.eqb_spec mine theirs) as [<-|Hne].
    + unfold mbind at 1, M_bind at 1.
      destruct (find_suite mine) as [algs|] eqn:Hfind.
      * destruct (create_ciphers_without_prf lib mine w algs Hfind
                    (Hfail algs eq_refl))
          as (w1 & Hrun & Hprf & Hsame & Hsuite & _).
        rewrite Hrun.
        assert (Htls : get_version (tls (this w1)) = get_version (tls (this w)))
          by (destruct Hsame as (_ & -> & _); done).
        destruct (IH w1) as (w2 & Hrun2 & Hsame2 & Hsuite2 & Hkeep & _).
        { rewrite Htls. exact Hfail. }
        exists w2. split_and!; try done.
        -- by eapply same_session_trans.
        -- congruence.
        -- intros _. by apply Hkeep.
        -- intros _ _. by apply Hkeep.
      * rewrite (create_ciphers_unknown lib mine w Hfind).
        destruct (IH w Hfail) as (w2 & Hrun2 & ? & ? & ? & _).
        exists w2. by split_and!.
    + destruct (IH w Hfail) as (w2 & Hrun2 & ? & ? & ? & Hdrop).
      exists w2. split_and!; try done.
      intros Hin. apply Hdrop.
      apply elem_of_cons in Hin as [?|?]; done.
Qed.

Lemma select_local_loop_without_prf lib local peer : ∀ w,
  (∀ s algs, s ∈ local → s ∈ peer → find_suite s = Some algs →
             prf_for lib (get_version (tls (this w))) algs = None) →
  ∃ w', select_local_loop lib local peer w = (0, w') ∧
    same_session (this w) (this w') ∧ suite (this w') = suite (this w) ∧
    (prf (this w) = None → prf (this w') = None) ∧
    (∀ s, s ∈ local → s ∈ peer → is_Some (find_suite s) →
          prf (this w') = None).
Proof.
  induction local as [|mine rest IH]; intros w Hfail;
    cbn [select_local_loop].
  - exists w. split_and!; try done. intros s Hs. by apply elem_of_nil in Hs.
  - unfold mbind at 1, M_bind at 1.
    assert (∃ w1, select_peer_loop lib mine peer w = (None, w1) ∧
              same_session (this w) (this w1) ∧
              suite (this w1) = suite (this w) ∧
              (prf (this w) = None → prf (this w1) = None) ∧
              (mine ∈ peer → is_Some (find_suite mine) →
               prf (this w1) = None))
      as (w1 & Hrun & Hsame & Hsuite & Hkeep & Hdrop).
    { destruct (decide (mine ∈ peer)) as [Hin|Hnot].
      - apply select_peer_loop_without_prf. intros algs.
        apply Hfail; [apply list_elem_of_here | done].
      - destruct (select_peer_loop_spec lib mine peer w)
          as (w1 & Hrun & _ & _ & Hframe).
        rewrite (bool_decide_eq_false_2 _ Hnot) in Hrun. simpl in Hrun.
        rewrite (Hframe Hnot) in Hrun. exists w. by split_and!. }
    rewrite Hrun.
    assert (Htls : get_version (tls (this w1)) = get_version (tls (this w)))
      by (destruct Hsame as (_ & -> & _); done).
    destruct (IH w1) as (w2 & Hrun2 & Hsame2 & Hsuite2 & Hkeep2 & Hdrop2).
    { rewrite Htls. intros s algs Hs. apply Hfail.
      by apply list_elem_of_further. }
    exists w2. split_and!; try done.
    + by eapply same_session_trans.
    + congruence.
    + intros Hnone. by apply Hkeep2, Hkeep.
    + intros s Hs Hin Hknown. apply elem_of_cons in Hs as [->|Hs].
      * by apply Hkeep2, Hdrop.
      * by eapply Hdrop2.
Qed.

(** X5: when the PRF cannot be constructed for any suite that both lists
    contain, and they share a suite of the table, selection returns 0 and
    keeps the stored suite, but the PRF the object had is gone: [get_prf]
    returns NULL and a derivation would call through it. *)
Theorem select_cipher_suite_failure_drops_prf lib peer w s :
  let v := get_version (tls (this w)) in
  s ∈ suites (this w) → s ∈ peer → is_Some (find_suite s) →
  (∀ s' algs, s' ∈ suites (this w) → s' ∈ peer → find_suite s' = Some algs →
              prf_for lib v algs = None) →
  ∃ w', select_cipher_suite lib peer w = (0, w') ∧
    suite (this w') = suite (this w) ∧
    get_prf (this w') = None ∧
    ∀ pm cr sr, derive_master_secret lib pm cr sr w' = None.
Proof.
  intros v Hs Hin Hknown Hfail.
  destruct (select_local_loop_without_prf lib (suites (this w)) peer w Hfail)
    as (w' & Hrun & _ & Hsuite & _ & Hdrop).
  exists w'. split_and!; try done.
  - by eapply Hdrop.
  - intros pm cr sr. unfold derive_master_secret.
    by rewrite (Hdrop s Hs Hin Hknown).
Qed.

Lemma select_cipher_suite_failure_drops_prf_witness :
  is_Some (get_prf (this sample_negotiated)) ∧
  ∃ w', select_cipher_suite sample_lib_without_prf
          [TLS_RSA_WITH_AES_128_CBC_SHA] sample_negotiated = (0, w') ∧
    suite (this w') = TLS_RSA_WITH_AES_128_CBC_SHA ∧
    get_prf (this w') = None.
Proof.
  split; [by eexists|].
  destruct (select_cipher_suite_failure_drops_prf sample_lib_without_prf
              [TLS_RSA_WITH_AES_128_CBC_SHA] sample_negotiated
              TLS_RSA_WITH_AES_128_CBC_SHA)
    as (w' & Hrun & Hsuite & Hprf & _).
  - vm_compute. pick_entry.
  - pick_entry.
  - by eexists.
  - intros s' algs _ _ _. reflexivity.
  - exists w'. split; [exact Hrun|]. split; [exact Hsuite | exact Hprf].
Defined.

(** ** The peer's list as a set *)

Lemma select_spec_ext lib v local peer peer' :
  (∀ s, s ∈ peer ↔ s ∈ peer') →
  select_spec lib v local peer = select_spec lib v local peer'.
Proof.
  intros Hsame. induction local as [|mine rest IH]; [done|].
  rewrite !select_spec_cons, IH.
  by rewrite (bool_decide_ext _ _ (Hsame mine)).
Qed.

(** X6: the order of the peer's list and repetitions in it have no
    influence on the suite returned and stored: two lists with the same
    members give the same selection. *)
Theorem select_cipher_suite_peer_order lib peer peer' w :
  (∀ s, s ∈ peer ↔ s ∈ peer') →
  (select_cipher_suite lib peer w).1 = (select_cipher_suite lib peer' w).1 ∧
  suite (this (select_cipher_suite lib peer w).2)
  = suite (this (select_cipher_suite lib peer' w).2).
Proof.
  intros Hsame.
  destruct (select_cipher_suite_spec lib peer w)
    as (w1 & Hrun1 & _ & Hz1 & Hnz1 & _).
  destruct (select_cipher_suite_spec lib peer' w)
    as (w2 & Hrun2 & _ & Hz2 & Hnz2 & _).
  rewrite Hrun1, Hrun2. simpl.
  rewrite (select_spec_ext _ _ _ _ _ Hsame) in *.
  split; [done|].
  destruct (decide (select_spec lib (get_version (tls (this w)))
                      (suites (this w)) peer' = 0)) as [Hz|Hnz].
  - by rewrite (Hz1 Hz), (Hz2 Hz).
  - destruct (Hnz1 Hnz) as [-> _]. by destruct (Hnz2 Hnz) as [-> _].
Qed.

Lemma select_cipher_suite_peer_order_witness :
  (select_cipher_suite sample_lib
     [TLS_RSA_WITH_AES_256_CBC_SHA; TLS_RSA_WITH_AES_128_CBC_SHA]
     (sample_world sample_server
        [TLS_RSA_WITH_AES_128_CBC_SHA; TLS_RSA_WITH_AES_256_CBC_SHA])).1
  = (select_cipher_suite sample_lib
       [TLS_RSA_WITH_AES_128_CBC_SHA; TLS_RSA_WITH_AES_256_CBC_SHA;
        TLS_RSA_WITH_AES_128_CBC_SHA]
       (sample_world sample_server
          [TLS_RSA_WITH_AES_128_CBC_SHA; TLS_RSA_WITH_AES_256_CBC_SHA])).1.
Proof.
  apply (select_cipher_suite_peer_order sample_lib
           [TLS_RSA_WITH_AES_256_CBC_SHA; TLS_RSA_WITH_AES_128_CBC_SHA]
           [TLS_RSA_WITH_AES_128_CBC_SHA; TLS_RSA_WITH_AES_256_CBC_SHA;
            TLS_RSA_WITH_AES_128_CBC_SHA]).
  intros s. rewrite !elem_of_cons, elem_of_nil. tauto.
Defined.

(** ** What a derivation needs and what it leaves alone *)

Lemma derive_master_secret_keyed_Some lib pm cr sr w :
  keyed (this w) → is_Some (derive_master_secret lib pm cr sr w).
Proof.
  intros ([p Hp] & [si Hsi] & [so Hso]).
  destruct (derive_master_secret_run lib pm cr sr w p si so Hp Hsi Hso)
    as (fr & w' & Hrun & _).
  rewrite Hrun. by eexists.
Qed.

Lemma derive_master_secret_Some_keyed lib pm cr sr w :
  is_Some (derive_master_secret lib pm cr sr w) → keyed (this w).
Proof.
  unfold derive_master_secret, keyed.
  destruct (prf (this w)) as [p|]; simpl; [|by intros [? [=]]].
  destruct (signer_out (this w)) as [so|]; simpl; [|by intros [? [=]]].
  destruct (signer_in (this w)) as [si|]; simpl; [|by intros [? [=]]].
  intros _. split_and!; by eexists.
Qed.

Lemma derive_master_secret_frame_run lib pm cr sr w fr w' :
  derive_master_secret lib pm cr sr w = Some (fr, w') →
  suites (this w') = suites (this w) ∧
  suite (this w') = suite (this w) ∧
  tls (this w') = tls (this w) ∧
  is_Some (prf (this w')) ∧
  signer_key_size <$> signer_in (this w')
  = signer_key_size <$> signer_in (this w) ∧
  signer_key_size <$> signer_out (this w')
  = signer_key_size <$> signer_out (this w) ∧
  crypter_key_size <$> crypter_in (this w')
  = crypter_key_size <$> crypter_in (this w) ∧
  crypter_key_size <$> crypter_out (this w')
  = crypter_key_size <$> crypter_out (this w) ∧
  crypter_block_size <$> crypter_out (this w')
  = crypter_block_size <$> crypter_out (this w) ∧
  (iv_len (this w) = 0%nat ∨ crypter_in (this w) = None →
   iv_in (this w') = iv_in (this w) ∧ iv_out (this w') = iv_out (this w)).
Proof.
  destruct w as [[sts st [v srv] pr sgi sgo ci co ivi ivo] cl].
  unfold derive_master_secret, iv_len. simpl.
  destruct pr as [p|]; simpl; [|done].
  destruct sgo as [so|]; simpl; [|done].
  destruct sgi as [si|]; simpl; [|done].
  destruct co as [co|], ci as [ci|], srv, (v <? TLS_1_2); simpl.
  all: try destruct (Nat.eqb_spec (crypter_block_size co) 0) as [Hz|Hnz]; simpl.
  all: intros [= <- <-]; simpl; split_and!; try done; try by eexists.
  all: by intros [?|?].
Qed.

Lemma fmap_eq_is_Some {A B : Type} (f : A → B) (x y : option A) :
  f <$> x = f <$> y → (is_Some x ↔ is_Some y).
Proof.
  intros Heq. by rewrite <- (fmap_is_Some f x), <- (fmap_is_Some f y), Heq.
Qed.

Lemma fmap_eq_from_option {A : Type} (f : A → nat) (x y : option A) :
  f <$> x = f <$> y → from_option f 0%nat x = from_option f 0%nat y.
Proof. destruct x, y; simpl; congruence. Qed.

(** X7: a derivation goes through exactly when the object has a PRF and
    both signers; on an object as [tls_crypto_create] returns it, before
    any selection, it calls through the NULL PRF. *)
Theorem derive_master_secret_defined lib pm cr sr w :
  (is_Some (derive_master_secret lib pm cr sr w) ↔ keyed (this w)) ∧
  (∀ t o, tls_crypto_create lib t = Some o → this w = o →
          derive_master_secret lib pm cr sr w = None).
Proof.
  split.
  - split; [apply derive_master_secret_Some_keyed
           | apply derive_master_secret_keyed_Some].
  - intros t o Hcreate Hw. unfold tls_crypto_create, build_cipher_suite_list
      in Hcreate.
    destruct (macs_loop lib (signer_enumerator lib) []); [|done].
    simpl in Hcreate. injection Hcreate as <-.
    unfold derive_master_secret. by rewrite Hw.
Qed.

Lemma derive_master_secret_defined_witness :
  is_Some (derive_master_secret sample_lib sample_premaster
             sample_client_random sample_server_random sample_negotiated) ∧
  derive_master_secret sample_lib sample_premaster sample_client_random
    sample_server_random
    {| this := default (init sample_server)
                 (tls_crypto_create sample_lib sample_server);
       calls := [] |} = None.
Proof.
  split.
  - apply (derive_master_secret_defined sample_lib sample_premaster
             sample_client_random sample_server_random sample_negotiated).
    apply negotiated_keyed, sample_negotiated_negotiated.
  - eapply (derive_master_secret_defined sample_lib); reflexivity.
Defined.

(** X8: a derivation changes neither the suite list, the stored suite nor
    the TLS context, and no size a later derivation reads; the object still
    has its PRF and signers, and its crypters if it had them, so that a
    derivation with fresh secrets goes through again.  The IVs are left as
    they were unless both crypters exist and the IV length is not zero. *)
Theorem derive_master_secret_frame lib pm cr sr w :
  keyed (this w) →
  ∃ fr w', derive_master_secret lib pm cr sr w = Some (fr, w') ∧
    get_cipher_suites (this w') = get_cipher_suites (this w) ∧
    suite (this w') = suite (this w) ∧
    tls (this w') = tls (this w) ∧
    mac_key_len (this w') = mac_key_len (this w) ∧
    enc_key_len (this w') = enc_key_len (this w) ∧
    iv_len (this w') = iv_len (this w) ∧
    keyed (this w') ∧
    (negotiated (this w) → negotiated (this w')) ∧
    (iv_len (this w) = 0%nat ∨ crypter_in (this w) = None →
     iv_in (this w') = iv_in (this w) ∧ iv_out (this w') = iv_out (this w)) ∧
    (∀ pm2 cr2 sr2, is_Some (derive_master_secret lib pm2 cr2 sr2 w')).
Proof.
  intros Hk.
  destruct (derive_master_secret_keyed_Some lib pm cr sr w Hk)
    as [[fr w'] Hrun].
  destruct (derive_master_secret_frame_run _ _ _ _ _ _ _ Hrun)
    as (Hsuites & Hsuite & Htls & Hprf & Hsi & Hso & Hci & Hco & Hbs & Hiv).
  assert (Hk' : keyed (this w')).
  { destruct Hk as (_ & Hin & Hout). split_and!; [done| |].
    - by apply (fmap_eq_is_Some _ _ _ Hsi).
    - by apply (fmap_eq_is_Some _ _ _ Hso). }
  exists fr, w'. split_and!; try done.
  - unfold get_cipher_suites. by rewrite Hsuites.
  - by apply fmap_eq_from_option.
  - by apply fmap_eq_from_option.
  - unfold iv_len. rewrite Htls.
    destruct (crypter_out (this w')), (crypter_out (this w));
      simpl in *; try done.
    by injection Hbs as ->.
  - intros (_ & _ & _ & Hboth). destruct Hk' as (? & ? & ?).
    split_and!; try done.
    rewrite (fmap_eq_is_Some _ _ _ Hci), (fmap_eq_is_Some _ _ _ Hco). done.
  - intros pm2 cr2 sr2. by apply derive_master_secret_keyed_Some.
Qed.

Lemma derive_master_secret_frame_witness :
  ∃ fr w',
    derive_master_secret sample_lib sample_premaster sample_client_random
      sample_server_random sample_negotiated_null = Some (fr, w') ∧
    iv_in (this w') = [] ∧ iv_out (this w') = [] ∧
    is_Some (derive_master_secret sample_lib sample_premaster
               sample_server_random sample_client_random w').
Proof.
  destruct (derive_master_secret_frame sample_lib sample_premaster
              sample_client_random sample_server_random
              sample_negotiated_null)
    as (fr & w' & Hrun & _ & _ & _ & _ & _ & _ & _ & _ & Hiv & Hagain).
  - vm_compute. split_and!; by eexists.
  - exists fr, w'. split; [exact Hrun|].
    destruct Hiv as [-> ->]; [by left|].
    split; [reflexivity|]. split; [reflexivity|]. apply Hagain.
Defined.

(** ** Both ends of a connection *)

(** X9: a client and a server whose PRFs are of the same kind and whose
    primitives have the same key, cipher-block and MAC key sizes derive,
    from the same secrets, the same master secret and the same key block,
    and what [change_cipher] hands over for the client's outbound direction
    carries the keys and the IV of the server's inbound direction, and the
    other way round. *)
Theorem derive_master_secret_symmetric lib pm cr sr wc ws :
  keyed (this wc) → keyed (this ws) →
  is_server (tls (this wc)) = false → is_server (tls (this ws)) = true →
  prf_kind <$> prf (this wc) = prf_kind <$> prf (this ws) →
  mac_key_len (this wc) = mac_key_len (this ws) →
  enc_key_len (this wc) = enc_key_len (this ws) →
  iv_len (this wc) = iv_len (this ws) →
  ∃ frc wc' frs ws',
    derive_master_secret lib pm cr sr wc = Some (frc, wc') ∧
    derive_master_secret lib pm cr sr ws = Some (frs, ws') ∧
    prf_key <$> get_prf (this wc') = prf_key <$> get_prf (this ws') ∧
    key_block_mem frc = key_block_mem frs ∧
    signer_key <$> cc_signer (change_cipher (this wc') false)
    = signer_key <$> cc_signer (change_cipher (this ws') true) ∧
    signer_key <$> cc_signer (change_cipher (this wc') true)
    = signer_key <$> cc_signer (change_cipher (this ws') false) ∧
    (is_Some (crypter_in (this wc)) → is_Some (crypter_out (this wc)) →
     is_Some (crypter_in (this ws)) → is_Some (crypter_out (this ws)) →
     crypter_key <$> cc_crypter (change_cipher (this wc') false)
     = crypter_key <$> cc_crypter (change_cipher (this ws') true) ∧
     crypter_key <$> cc_crypter (change_cipher (this wc') true)
     = crypter_key <$> cc_crypter (change_cipher (this ws') false) ∧
     (iv_len (this ws) ≠ 0%nat →
      cc_iv (change_cipher (this wc') false)
      = cc_iv (change_cipher (this ws') true) ∧
      cc_iv (change_cipher (this wc') true)
      = cc_iv (change_cipher (this ws') false))).
Proof.
  intros ([pc Hpc] & [sic Hsic] & [soc Hsoc]) ([ps Hps] & [sis Hsis] & [sos Hsos])
    Hclient Hserver Hkind Hmks Heks Hivs.
  rewrite Hpc, Hps in Hkind. injection Hkind as Hkind.
  destruct (derive_master_secret_run lib pm cr sr wc pc sic soc Hpc Hsic Hsoc)
    as (frc & wc' & Hrunc & _ & _ & Hkbc & _ & _ & Hprfc & Hinc & Houtc & Hcrc).
  destruct (derive_master_secret_run lib pm cr sr ws ps sis sos Hps Hsis Hsos)
    as (frs & ws' & Hruns & _ & _ & Hkbs & _ & _ & Hprfs & Hins & Houts & Hcrs).
  rewrite Hclient, Hmks, Heks, Hivs in *. rewrite Hserver in *.
  assert (Hmaster : master_secret lib pc pm cr sr = master_secret lib ps pm cr sr).
  { unfold master_secret, prf_set_key. by rewrite Hkind. }
  assert (Hkb : key_block_mem frc = key_block_mem frs).
  { rewrite Hkbc, Hkbs, Hmaster. unfold key_block, prf_set_key.
    by rewrite Hkind. }
  rewrite <- Hkbc in Hinc, Houtc, Hcrc. rewrite <- Hkbs in Hins, Houts, Hcrs.
  rewrite Hkb in Hinc, Houtc, Hcrc.
  exists frc, wc', frs, ws'. unfold get_prf, change_cipher. simpl.
  rewrite Hprfc, Hprfs, Hinc, Houtc, Hins, Houts, Hmaster.
  split_and!; try done.
  intros [cic Hcic] [coc Hcoc] [cis Hcis] [cos Hcos].
  destruct (Hcrc cic coc Hcic Hcoc) as (-> & -> & Hivc).
  destruct (Hcrs cis cos Hcis Hcos) as (-> & -> & Hivss).
  split_and!; try done.
  intros Hnz. destruct (Hivc Hnz) as [-> ->]. by destruct (Hivss Hnz) as [-> ->].
Qed.

Lemma derive_master_secret_symmetric_witness :
  ∃ frc wc' frs ws',
    derive_master_secret sample_lib sample_premaster sample_client_random
      sample_server_random sample_negotiated_client = Some (frc, wc') ∧
    derive_master_secret sample_lib sample_premaster sample_client_random
      sample_server_random sample_negotiated = Some (frs, ws') ∧
    signer_key <$> cc_signer (change_cipher (this wc') false)
    = signer_key <$> cc_signer (change_cipher (this ws') true) ∧
    cc_iv (change_cipher (this wc') true)
    = cc_iv (change_cipher (this ws') false).
Proof.
  destruct (derive_master_secret_symmetric sample_lib sample_premaster
              sample_client_random sample_server_random
              sample_negotiated_client sample_negotiated)
    as (frc & wc' & frs & ws' & Hc & Hs & _ & _ & Hout & _ & Hcr).
  - vm_compute. split_and!; by eexists.
  - apply negotiated_keyed, sample_negotiated_negotiated.
  - reflexivity.
  - reflexivity.
  - reflexivity.
  - reflexivity.
  - reflexivity.
  - reflexivity.
  - exists frc, wc', frs, ws'. split; [exact Hc|]. split; [exact Hs|].
    split; [exact Hout|].
    destruct Hcr as (_ & _ & Hiv); try by eexists.
    apply Hiv. by vm_compute.
Defined.

(** X10: after the selection of a suite whose encryption algorithm is
    [ENCR_NULL], the key block of a derivation holds the two MAC keys and
    nothing else, and [change_cipher] hands over, for either direction, a
    signer, no crypter, and the IV the object had before. *)
Theorem null_cipher_integrity_only lib peer w pm cr sr algs :
  let r := (select_cipher_suite lib peer w).1 in
  let w1 := (select_cipher_suite lib peer w).2 in
  r ≠ 0 → find_suite r = Some algs → sa_encr algs = ENCR_NULL →
  ∃ fr w2, derive_master_secret lib pm cr sr w1 = Some (fr, w2) ∧
    length (key_block_mem fr) = (2 * mac_key_len (this w1))%nat ∧
    ∀ inbound,
      cc_crypter (change_cipher (this w2) inbound) = None ∧
      is_Some (cc_signer (change_cipher (this w2) inbound)) ∧
      cc_iv (change_cipher (this w2) inbound)
      = cc_iv (change_cipher (this w) inbound).
Proof.
  intros r w1 Hr Hfind Hnull.
  destruct (select_cipher_suite_spec lib peer w)
    as (w' & Hrun & Hsame & _ & _ & _).
  unfold r, w1 in *. rewrite Hrun in *. simpl in *.
  destruct (select_local_loop_built _ _ _ _ _ _ Hrun Hr)
    as (algs' & Hfind' & _ & [p Hp] & Hsi & [si Hsis] & Hso & Hci & Hco & _).
  assert (algs' = algs) as -> by congruence.
  unfold crypter_for in Hci, Hco. rewrite Hnull in Hci, Hco.
  assert (Hsos : signer_out (this w') = Some si) by congruence.
  destruct (derive_master_secret_run lib pm cr sr w' p si si Hp Hsis Hsos)
    as (fr & w2 & Hrun2 & _ & _ & Hkb & _).
  destruct (derive_master_secret_frame_run _ _ _ _ _ _ _ Hrun2)
    as (_ & _ & _ & _ & Hsi2 & Hso2 & Hci2 & Hco2 & _ & Hiv).
  exists fr, w2. split; [done|]. split.
  - rewrite Hkb. unfold key_block. rewrite length_prf_get_bytes.
    unfold enc_key_len, iv_len. rewrite Hco. simpl. lia.
  - destruct Hsame as (_ & _ & Hivin & Hivout).
    destruct Hiv as [Hivin2 Hivout2]; [by right|].
    rewrite Hci in Hci2. rewrite Hco in Hco2. simpl in Hci2, Hco2.
    apply fmap_None in Hci2, Hco2.
    intros []; simpl; split_and!; try done; try congruence.
    + apply (fmap_eq_is_Some _ _ _ Hsi2). by rewrite Hsis.
    + apply (fmap_eq_is_Some _ _ _ Hso2). by rewrite Hsos.
Qed.

Lemma null_cipher_integrity_only_witness :
  ∃ fr w2,
    derive_master_secret sample_lib sample_premaster sample_client_random
      sample_server_random sample_negotiated_null = Some (fr, w2) ∧
    length (key_block_mem fr) = 64%nat ∧
    cc_crypter (change_cipher (this w2) true) = None ∧
    cc_crypter (change_cipher (this w2) false) = None.
Proof.
  destruct (null_cipher_integrity_only sample_lib [TLS_RSA_WITH_NULL_SHA256]
              (sample_world sample_client [TLS_RSA_WITH_NULL_SHA256])
              sample_premaster sample_client_random sample_server_random
              {| sa_suite := TLS_RSA_WITH_NULL_SHA256;
                 sa_hash := HASH_SHA256; sa_prf := PRF_HMAC_SHA2_256;
                 sa_mac := AUTH_HMAC_SHA2_256_256;
                 sa_encr := ENCR_NULL; sa_encr_size := 0 |})
    as (fr & w2 & Hrun & Hlen & Hcc).
  - by vm_compute.
  - reflexivity.
  - reflexivity.
  - exists fr, w2. split; [exact Hrun|]. split; [exact Hlen|].
    split; apply Hcc.
Defined.

(** ** The constructions a selection asks for *)

Lemma create_ciphers_made lib s w ok w' :
  create_ciphers lib s w = (ok, w') →
  ∃ made, calls w' = calls w ++ made ∧
    ∀ c, c ∈ made →
         ∃ algs, find_suite s = Some algs ∧
           c ∈ create_ciphers_calls (get_version (tls (this w))) algs.
Proof.
  unfold create_ciphers, create_ciphers_calls.
  destruct (find_suite s) as [algs|].
  2: { intros [= <- <-]. exists []. split; [by rewrite app_nil_r|].
       intros c Hc. by apply elem_of_nil in Hc. }
  run_M.
  destruct (get_version (tls (this w)) <? TLS_1_2) eqn:Hv.
  - destruct (tls_prf_create_10 lib) as [p|];
      destruct (create_signer lib (sa_mac algs)) as [sg|];
      destruct (sa_encr algs) eqn:Hencr; simpl;
      try destruct (create_crypter lib _ (sa_encr_size algs)) as [c|];
      simpl; intros [= <- <-]; simpl; rewrite <- ?(assoc_L (++)); simpl;
      (eexists; split; [reflexivity|]); intros c' Hc'; exists algs;
      (split; [done|]); rewrite ?Hencr;
      repeat (apply elem_of_cons in Hc' as [->|Hc']);
      try (by apply elem_of_nil in Hc'); simpl; pick_entry.
  - destruct (tls_prf_create_12 lib (sa_prf algs)) as [p|];
      destruct (create_signer lib (sa_mac algs)) as [sg|];
      destruct (sa_encr algs) eqn:Hencr; simpl;
      try destruct (create_crypter lib _ (sa_encr_size algs)) as [c|];
      simpl; intros [= <- <-]; simpl; rewrite <- ?(assoc_L (++)); simpl;
      (eexists; split; [reflexivity|]); intros c' Hc'; exists algs;
      (split; [done|]); rewrite ?Hencr;
      repeat (apply elem_of_cons in Hc' as [->|Hc']);
      try (by apply elem_of_nil in Hc'); simpl; pick_entry.
Qed.

Lemma create_ciphers_same_version lib s w ok w' :
  create_ciphers lib s w = (ok, w') →
  get_version (tls (this w')) = get_version (tls (this w)).
Proof.
  intros Hrun.
  destruct (create_ciphers_spec lib s w) as (w1 & Hrun1 & (_ & Htls & _) & _).
  rewrite Hrun in Hrun1. injection Hrun1 as _ <-. by rewrite Htls.
Qed.

Lemma select_peer_loop_made lib mine peer : ∀ w r w',
  select_peer_loop lib mine peer w = (r, w') →
  ∃ made, calls w' = calls w ++ made ∧
    ∀ c, c ∈ made →
         mine ∈ peer ∧
         ∃ algs, find_suite mine = Some algs ∧
           c ∈ create_ciphers_calls (get_version (tls (this w))) algs.
Proof.
  induction peer as [|theirs rest IH]; intros w r w'; cbn [select_peer_loop].
  - run_M. intros [= <- <-]. exists []. split; [by rewrite app_nil_r|].
    intros c Hc. by apply elem_of_nil in Hc.
  - destruct (Z.eqb_spec mine theirs) as [<-|Hne].
    + unfold mbind at 1, M_bind at 1.
      destruct (create_ciphers lib mine w) as [ok w1] eqn:Hrun.
      destruct (create_ciphers_made _ _ _ _ _ Hrun) as (m1 & Hcalls1 & Hm1).
      pose proof (create_ciphers_same_version _ _ _ _ _ Hrun) as Hv.
      destruct ok.
      * run_M. intros [= <- <-]. exists m1. simpl. split; [done|].
        intros c Hc. split; [apply list_elem_of_here | by apply Hm1].
      * intros Hrest.
        destruct (IH _ _ _ Hrest) as (m2 & Hcalls2 & Hm2).
        exists (m1 ++ m2). split.
        { by rewrite Hcalls2, Hcalls1, <- (assoc_L (++)). }
        intros c Hc. split; [apply list_elem_of_here|].
        apply elem_of_app in Hc as [Hc|Hc]; [by apply Hm1|].
        destruct (Hm2 c Hc) as [_ Halgs]. by rewrite Hv in Halgs.
    + intros Hrest. destruct (IH _ _ _ Hrest) as (m2 & Hcalls2 & Hm2).
      exists m2. split; [done|]. intros c Hc.
      destruct (Hm2 c Hc) as [Hin Halgs]. split; [|done].
      by apply list_elem_of_further.
Qed.

Lemma select_peer_loop_same_version lib mine peer w r w' :
  select_peer_loop lib mine peer w = (r, w') →
  get_version (tls (this w')) = get_version (tls (this w)).
Proof.
  intros Hrun.
  destruct (select_peer_loop_spec lib mine peer w)
    as (w1 & Hrun1 & (_ & Htls & _) & _).
  rewrite Hrun in Hrun1. injection Hrun1 as _ <-. by rewrite Htls.
Qed.

Lemma select_local_loop_made lib local peer : ∀ w r w',
  select_local_loop lib local peer w = (r, w') →
  ∃ made, calls w' = calls w ++ made ∧
    ∀ c, c ∈ made →
         ∃ s algs, s ∈ local ∧ s ∈ peer ∧ find_suite s = Some algs ∧
           c ∈ create_ciphers_calls (get_version (tls (this w))) algs.
Proof.
  induction local as [|mine rest IH]; intros w r w'; cbn [select_local_loop].
  - run_M. intros [= <- <-]. exists []. split; [by rewrite app_nil_r|].
    intros c Hc. by apply elem_of_nil in Hc.
  - unfold mbind at 1, M_bind at 1.
    destruct (select_peer_loop lib mine peer w) as [sel w1] eqn:Hrun.
    destruct (select_peer_loop_made _ _ _ _ _ _ Hrun) as (m1 & Hcalls1 & Hm1).
    pose proof (select_peer_loop_same_version _ _ _ _ _ _ Hrun) as Hv.
    assert (Hfirst : ∀ c, c ∈ m1 →
              ∃ s algs, s ∈ mine :: rest ∧ s ∈ peer ∧
                find_suite s = Some algs ∧
                c ∈ create_ciphers_calls (get_version (tls (this w))) algs).
    { intros c Hc. destruct (Hm1 c Hc) as (Hin & algs & Hfind & Hcall).
      exists mine, algs. split_and!; try done. apply list_elem_of_here. }
    destruct sel as [selected|].
    + run_M. intros [= <- <-]. by exists m1.
    + intros Hrest. destruct (IH _ _ _ Hrest) as (m2 & Hcalls2 & Hm2).
      exists (m1 ++ m2). split.
      { by rewrite Hcalls2, Hcalls1, <- (assoc_L (++)). }
      intros c Hc. apply elem_of_app in Hc as [Hc|Hc]; [by apply Hfirst|].
      destruct (Hm2 c Hc) as (s & algs & Hs & Hin & Hfind & Hcall).
      exists s, algs. rewrite Hv in Hcall. split_and!; try done.
      by apply list_elem_of_further.
Qed.

(** X11: selection only adds to the constructor calls made so far, and
    every call it adds is one of the constructor calls for the table entry
    of a suite that is in the local list and in the peer's list: nothing is
    constructed for a suite the two sides do not share. *)
Theorem select_cipher_suite_constructs_shared_only lib peer w :
  ∃ made,
    calls (select_cipher_suite lib peer w).2 = calls w ++ made ∧
    ∀ c, c ∈ made →
         ∃ s algs, s ∈ suites (this w) ∧ s ∈ peer ∧
           find_suite s = Some algs ∧
           c ∈ create_ciphers_calls (get_version (tls (this w))) algs.
Proof.
  destruct (select_cipher_suite lib peer w) as [r w'] eqn:Hrun.
  exact (select_local_loop_made _ _ _ _ _ _ Hrun).
Qed.

Lemma select_cipher_suite_constructs_shared_only_witness :
  Call_create_crypter ENCR_AES_CBC 32
  ∉ calls (select_cipher_suite sample_lib
             [TLS_RSA_WITH_NULL_SHA; TLS_RSA_WITH_AES_128_CBC_SHA]
             (sample_world sample_server
                [TLS_RSA_WITH_AES_256_CBC_SHA; TLS_RSA_WITH_NULL_SHA])).2.
Proof.
  intros Hin.
  destruct (select_cipher_suite_constructs_shared_only sample_lib
              [TLS_RSA_WITH_NULL_SHA; TLS_RSA_WITH_AES_128_CBC_SHA]
              (sample_world sample_server
                 [TLS_RSA_WITH_AES_256_CBC_SHA; TLS_RSA_WITH_NULL_SHA]))
    as (made & Hcalls & Hmade).
  rewrite Hcalls in Hin. simpl in Hin.
  destruct (Hmade _ Hin) as (s & algs & Hlocal & Hpeer & Hfind & Hcall).
  simpl in Hlocal.
  apply elem_of_cons in Hlocal as [->|Hlocal];
    [|apply list_elem_of_singleton in Hlocal as ->].
  - apply elem_of_cons in Hpeer as [Heq|Hpeer]; [by vm_compute in Heq|].
    apply list_elem_of_singleton in Hpeer. by vm_compute in Hpeer.
  - vm_compute in Hfind. injection Hfind as <-. vm_compute in Hcall.
    repeat (apply elem_of_cons in Hcall as [Heq|Hcall]; [discriminate Heq|]).
    by apply elem_of_nil in Hcall.
Defined.
